(** * Offline recommendation engine: a shallow embedding and its properties

    The engine of [OfflineRecommendationEngine] (ingestion, hashed
    term-frequency embedding, keyword extraction, similarity scoring and
    ranked retrieval) is embedded function by function.

    Conventions of the embedding.
    - A JavaScript string is a [string]: a sequence of character codes below
      256.  [toLowerCase] folds the letters A-Z; no other character of that
      range is, or lower-cases to, a word character of the regular
      expressions used by the engine, so the tokens agree with the source.
    - A JavaScript number is a binary64 float ([float], the primitive type
      of the prover, with the rounding of IEEE 754).  Integers that the
      source only counts with (array lengths, occurrence counts, page
      numbers, the 32-bit hash) are [nat] or [Z]; they are converted where
      the source divides them, which is exact below 2^53.
    - A [Map] is an association list in insertion order with distinct keys.
    - [Array.prototype.sort] is stable; it is modelled by the stable
      insertion sort [js_sort], which computes the one stable ordering
      whenever the comparator is consistent, as the two comparators of the
      engine are on the values they are given.
    - [localStorage] is the value [Stored] that a read of the item leads to.
    - The methods are [async] but run to their end one after the other;
      they are functions from the state before to the state after. *)

From Stdlib Require Import ZArith List Bool Lia Ascii String Sorted.
From Stdlib Require Import Floats Uint63 DecimalString.
From Stdlib Require Import Reals Lra.
From Stdlib Require Import Permutation.
Import ListNotations.

Local Open Scope string_scope.
Local Open Scope list_scope.

(** ** Strings *)

Module JsString.

Definition charCode (c : ascii) : Z := Z.of_nat (nat_of_ascii c).

Definition is_upper (c : ascii) : bool :=
  (65 <=? charCode c)%Z && (charCode c <=? 90)%Z.

Definition lower_char (c : ascii) : ascii :=
  if is_upper c then ascii_of_nat (nat_of_ascii c + 32) else c.

(** [text.toLowerCase()] *)
Fixpoint toLowerCase (s : string) : string :=
  match s with
  | EmptyString => EmptyString
  | String c s' => String (lower_char c) (toLowerCase s')
  end.

(** The class [\w]: letters, digits and the underscore. *)
Definition is_word (c : ascii) : bool :=
  let n := charCode c in
  ((48 <=? n) && (n <=? 57) || (65 <=? n) && (n <=? 90) ||
   (97 <=? n) && (n <=? 122) || (n =? 95))%Z.

(** White space of the character range: tab, line feed, vertical tab, form
    feed, carriage return, space and the no-break space. *)
Definition is_space (c : ascii) : bool :=
  let n := charCode c in
  ((9 <=? n) && (n <=? 13) || (n =? 32) || (n =? 160))%Z.

Definition flush (cur : string) : list string :=
  match cur with
  | EmptyString => []
  | _ => [cur]
  end.

(** The matches of [/\b\w+\b/g]: a match can only start at the first
    character of a run of word characters, [\w+] is greedy and the closing
    [\b] holds exactly at the end of the run, so the matches are the maximal
    runs, left to right.  [cur] is the run being read. *)
Fixpoint word_runs (cur : string) (s : string) : list string :=
  match s with
  | EmptyString => flush cur
  | String c s' =>
      if is_word c then word_runs (cur ++ String c EmptyString) s'
      else flush cur ++ word_runs EmptyString s'
  end.

(** [s.match(/\b\w+\b/g) || []] *)
Definition match_words (s : string) : list string := word_runs EmptyString s.

(** [s.match(/\b\w{4,}\b/g) || []]: a run shorter than four characters has
    no match inside it (the only boundary positions are its two ends); a
    longer run is matched whole. *)
Definition match_words4 (s : string) : list string :=
  filter (fun w => 4 <=? String.length w)%nat (word_runs EmptyString s).

(** [s.substring(0, n)] *)
Definition prefix (n : nat) (s : string) : string := substring 0 n s.

(** Decimal rendering of an integer, as in a template literal. *)
Definition of_Z (z : Z) : string := NilZero.string_of_int (Z.to_int z).

End JsString.

(** ** Maps in insertion order *)

Module JsMap.

Section Ops.
Context {V : Type}.

(** [m.get(k)] *)
Fixpoint get (k : string) (m : list (string * V)) : option V :=
  match m with
  | [] => None
  | (k', v) :: m' => if String.eqb k k' then Some v else get k m'
  end.

(** [m.set(k, v)]: an existing key keeps its place, a new key goes last. *)
Fixpoint set (k : string) (v : V) (m : list (string * V)) : list (string * V) :=
  match m with
  | [] => [(k, v)]
  | (k', v') :: m' =>
      if String.eqb k k' then (k, v) :: m' else (k', v') :: set k v m'
  end.

End Ops.

End JsMap.

(** ** The 32-bit hash *)

(** [ToInt32]: wrap into the signed 32-bit range. *)
Definition to_int32 (z : Z) : Z :=
  ((z + 2147483648) mod 4294967296 - 2147483648)%Z.

(** One round of the loop of [simpleHash]: [hash << 5] wraps to 32 bits, the
    subtraction and the addition are exact in a double, and [hash & hash]
    wraps the sum. *)
Definition hash_step (hash : Z) (c : ascii) : Z :=
  let shifted := to_int32 (Z.shiftl (to_int32 hash) 5) in
  to_int32 (shifted - hash + JsString.charCode c).

Fixpoint hash_loop (hash : Z) (s : string) : Z :=
  match s with
  | EmptyString => hash
  | String c s' => hash_loop (hash_step hash c) s'
  end.

Definition simpleHash (str : string) : Z := Z.abs (hash_loop 0 str).

(** [this.simpleHash(word) % 100] *)
Definition bucket (word : string) : nat :=
  Z.to_nat (Z.rem (simpleHash word) 100).

(** ** Numbers

    The scorer is written once over the arithmetic it uses, so that it can
    be run on binary64 floats, which is what the engine does, and read over
    exact real numbers, where rounding and overflow are absent. *)

Class JsNumber (F : Type) := {
  zero : F;
  (** what arithmetic on a missing array element yields *)
  nan : F;
  add : F -> F -> F;
  mul : F -> F -> F;
  div : F -> F -> F;
  sqrt : F -> F;
  (** an integer as a number *)
  of_nat : nat -> F;
  (** [ToBoolean]: false on zero and on NaN *)
  truthy : F -> bool;
  (** the literals [0.7] and [0.3] *)
  lit_0_7 : F;
  lit_0_3 : F
}.

Module F64.

Definition is_nan (x : float) : bool := negb (PrimFloat.eqb x x).

(** An integer count or length as a number (exact below 2^53). *)
Definition of_nat (n : nat) : float :=
  PrimFloat.of_uint63 (Uint63.of_Z (Z.of_nat n)).

Definition truthy (x : float) : bool :=
  negb (PrimFloat.eqb x 0%float || is_nan x).

(** The doubles nearest to 0.7 and to 0.3. *)
Definition lit_0_7 : float := 0x1.6666666666666p-1%float.
Definition lit_0_3 : float := 0x1.3333333333333p-2%float.

(** [0 <= x]: a number that is not NaN and not negative. *)
Definition nonneg (x : float) : Prop := PrimFloat.leb 0%float x = true.

End F64.

#[export] Instance float_number : JsNumber float := {|
  zero := 0%float;
  nan := PrimFloat.nan;
  add := PrimFloat.add;
  mul := PrimFloat.mul;
  div := PrimFloat.div;
  sqrt := PrimFloat.sqrt;
  of_nat := F64.of_nat;
  truthy := F64.truthy;
  lit_0_7 := F64.lit_0_7;
  lit_0_3 := F64.lit_0_3
|}.

Module Exact.

Definition truthy (x : R) : bool := if Req_dec_T x 0%R then false else true.

End Exact.

(** Exact real arithmetic; [nan] has no counterpart and is never read when
    the two vectors have the same length. *)
#[export] Instance real_number : JsNumber R := {|
  zero := 0%R;
  nan := 0%R;
  add := Rplus;
  mul := Rmult;
  div := Rdiv;
  sqrt := R_sqrt.sqrt;
  of_nat := INR;
  truthy := Exact.truthy;
  lit_0_7 := (7 / 10)%R;
  lit_0_3 := (3 / 10)%R
|}.

(** ** Shapes of binary64 values *)

Module SF.

(** A float that is neither NaN nor of sign [s] reversed. *)
Definition signed (s : bool) (x : spec_float) : Prop :=
  match x with
  | S754_zero s' | S754_infinity s' | S754_finite s' _ _ => s' = s
  | S754_nan => False
  end.

(** Not NaN and not below zero. *)
Definition nonneg (x : spec_float) : Prop :=
  match x with
  | S754_zero _ => True
  | S754_infinity s | S754_finite s _ _ => s = false
  | S754_nan => False
  end.

(** Finite and above zero. *)
Definition pos_finite (x : spec_float) : Prop :=
  match x with
  | S754_finite false _ _ => True
  | _ => False
  end.

(** Of sign [s] and not zero: finite or infinite. *)
Definition strictly (s : bool) (x : spec_float) : Prop :=
  match x with
  | S754_infinity s' | S754_finite s' _ _ => s' = s
  | _ => False
  end.

(** Above zero, infinite or not. *)
Definition positive_value (x : spec_float) : Prop :=
  match x with
  | S754_infinity false | S754_finite false _ _ => True
  | _ => False
  end.

(** NaN, or not below zero. *)
Definition not_neg (x : spec_float) : Prop :=
  match x with
  | S754_infinity true | S754_finite true _ _ => False
  | _ => True
  end.

(** NaN, or of positive sign: not below zero and not the negative zero. *)
Definition plus (x : spec_float) : Prop :=
  match x with
  | S754_nan => True
  | S754_zero s | S754_infinity s | S754_finite s _ _ => s = false
  end.

End SF.

(** ** Sorting *)

Section Sort.
Context {A : Type}.
(** [after a b] reads: the comparator returned a positive number on
    [(a, b)], which asks for [a] after [b]. *)
Variable after : A -> A -> bool.

Fixpoint js_insert (x : A) (l : list A) : list A :=
  match l with
  | [] => [x]
  | y :: l' => if after x y then y :: js_insert x l' else x :: l
  end.

(** Stable sort: each element is placed in front of the sorted rest and
    moves right only past elements it has to come after. *)
Fixpoint js_sort (l : list A) : list A :=
  match l with
  | [] => []
  | x :: l' => js_insert x (js_sort l')
  end.

End Sort.

(** ** Feature extraction *)

Definition lookup_count (word : string) (m : list (string * nat)) : nat :=
  match JsMap.get word m with
  | Some c => c
  | None => 0
  end.

(** The body of [words.forEach] in [generateSimpleEmbedding]. *)
Definition count_word (wordCount : list (string * nat)) (word : string)
  : list (string * nat) :=
  if (2 <? String.length word)%nat
  then JsMap.set word (lookup_count word wordCount + 1) wordCount
  else wordCount.

(** [embedding[i] += w]; the index is always below the length here. *)
Fixpoint add_at (i : nat) (w : float) (embedding : list float) : list float :=
  match embedding, i with
  | [], _ => []
  | x :: rest, O => PrimFloat.add x w :: rest
  | x :: rest, S i' => x :: add_at i' w rest
  end.

(** One round of the loop over [wordCount.entries()], before the test on
    [index]. *)
Definition fold_entry (len : nat) (embedding : list float)
  (entry : string * nat) : list float :=
  add_at (bucket (fst entry))
    (PrimFloat.div (F64.of_nat (snd entry)) (F64.of_nat len)) embedding.

(** The loop with its counter and its [break]. *)
Fixpoint embed_loop (len : nat) (entries : list (string * nat))
  (embedding : list float) (index : nat) : list float :=
  match entries with
  | [] => embedding
  | entry :: rest =>
      let embedding := fold_entry len embedding entry in
      let index := S index in
      if (50 <? index)%nat then embedding
      else embed_loop len rest embedding index
  end.

Definition generateSimpleEmbedding (text : string) : list float :=
  let words := JsString.match_words (JsString.toLowerCase text) in
  let wordCount := fold_left count_word words [] in
  let embedding := repeat 0%float 100 in
  embed_loop (List.length words) wordCount embedding 0.

Definition stopWords : list string :=
  ["the"; "a"; "an"; "and"; "or"; "but"; "in"; "on"; "at"; "to"; "for"; "of";
   "with"; "by"; "this"; "that"; "these"; "those"; "is"; "are"; "was"; "were";
   "be"; "been"; "have"; "has"; "had"; "will"; "would"; "could"; "should"].

Definition isStopWord (word : string) : bool :=
  existsb (String.eqb word) stopWords.

(** The body of [words.forEach] in [extractKeywords]. *)
Definition count_keyword (frequency : list (string * nat)) (word : string)
  : list (string * nat) :=
  if negb (isStopWord word)
  then JsMap.set word (lookup_count word frequency + 1) frequency
  else frequency.

(** The comparator [(a, b) => b[1] - a[1]] returned a positive number. *)
Definition by_count_after (a b : string * nat) : bool :=
  (0 <? Z.of_nat (snd b) - Z.of_nat (snd a))%Z.

Definition extractKeywords (text : string) : list string :=
  let words := JsString.match_words4 (JsString.toLowerCase text) in
  let frequency := fold_left count_keyword words [] in
  map fst (firstn 10 (js_sort by_count_after frequency)).

(** ** Similarity *)

Section Scorer.
Context {F : Type} `{JsNumber F}.

(** The [for] loop of [calculateSimilarity] over the indices of
    [embedding1]; the accumulator is [(dotProduct, norm1, norm2)]. *)
Fixpoint sim_loop (embedding1 embedding2 : list F) (acc : F * F * F)
  : F * F * F :=
  match embedding1 with
  | [] => acc
  | a :: rest1 =>
      let b := hd nan embedding2 in
      let '(dotProduct, norm1, norm2) := acc in
      sim_loop rest1 (tl embedding2)
        (add dotProduct (mul a b), add norm1 (mul a a), add norm2 (mul b b))
  end.

Definition cosine (embedding1 embedding2 : list F) : F :=
  let '(dotProduct, norm1, norm2) :=
    sim_loop embedding1 embedding2 (zero, zero, zero) in
  if truthy norm1 && truthy norm2
  then div dotProduct (mul (sqrt norm1) (sqrt norm2))
  else zero.

Definition overlap (keywords1 keywords2 : list string) : nat :=
  List.length (filter (fun k => existsb (String.eqb k) keywords2) keywords1).

Definition keyword_denominator (keywords1 keywords2 : list string) : nat :=
  Nat.max (Nat.max (List.length keywords1) (List.length keywords2)) 1.

Definition keywordSim (keywords1 keywords2 : list string) : F :=
  div (of_nat (overlap keywords1 keywords2))
      (of_nat (keyword_denominator keywords1 keywords2)).

Definition calculateSimilarity (embedding1 embedding2 : list F)
  (keywords1 keywords2 : list string) : F :=
  let cosineSim := cosine embedding1 embedding2 in
  add (mul cosineSim lit_0_7) (mul (keywordSim keywords1 keywords2) lit_0_3).

End Scorer.

(** ** The engine *)

Record PageEmbedding := {
  pageNumber : Z;
  text : string;
  embedding : list float;
  keywords : list string
}.

Record DocumentEmbedding := {
  id : string;
  name : string;
  pageEmbeddings : list PageEmbedding
}.

(** The two fields of [PDFDocument] that the engine reads. *)
Record PDFDocument := {
  doc_id : string;
  doc_name : string
}.

Record Position := { pos_x : Z; pos_y : Z; pos_width : Z; pos_height : Z }.

Record RelatedSection := {
  section_id : string;
  documentId : string;
  documentName : string;
  section_pageNumber : Z;
  content : string;
  snippet : string;
  relevanceScore : float;
  position : Position
}.

(** The fields [documents] and [isInitialized] of the engine. *)
Record Engine := {
  documents : list (string * DocumentEmbedding);
  isInitialized : bool
}.

(** [new OfflineRecommendationEngine()] *)
Definition fresh : Engine := {| documents := []; isInitialized := false |}.

(** What reading the item [offline_documents] and parsing it leads to, as
    far as [initialize] can tell the cases apart. *)
Inductive Stored :=
  | GetItemThrows                 (* [localStorage.getItem] throws *)
  | NoItem                        (* [null] or the empty string *)
  | Unparsable                    (* [JSON.parse] throws *)
  | NotAnArray                    (* [parsed.forEach] is not a function *)
  | DocArray (items : list (option DocumentEmbedding)).
                                  (* [None]: an element whose [doc.id] throws *)

(** [parsed.forEach(doc => this.documents.set(doc.id, doc))]; the result is
    the map reached and whether the loop ran to its end. *)
Fixpoint load_items (items : list (option DocumentEmbedding))
  (docs : list (string * DocumentEmbedding))
  : list (string * DocumentEmbedding) * bool :=
  match items with
  | [] => (docs, true)
  | Some doc :: rest => load_items rest (JsMap.set (id doc) doc docs)
  | None :: rest => (docs, false)
  end.

Definition initialize (ls : Stored) (e : Engine) : Engine :=
  if isInitialized e then e
  else
    match ls with
    | GetItemThrows => e
    | NoItem => {| documents := documents e; isInitialized := true |}
    | Unparsable => e
    | NotAnArray => e
    | DocArray items =>
        let '(docs, completed) := load_items items (documents e) in
        {| documents := docs; isInitialized := completed |}
    end.

(** The callback of [textContent.map]. *)
Definition embed_page (index : nat) (text : string) : PageEmbedding := {|
  pageNumber := Z.of_nat index + 1;
  text := JsString.prefix 1000 text;
  embedding := generateSimpleEmbedding text;
  keywords := extractKeywords text
|}.

(** [textContent.map((text, index) => ...)], from position [index] on. *)
Fixpoint map_pages (index : nat) (textContent : list string)
  : list PageEmbedding :=
  match textContent with
  | [] => []
  | text :: rest => embed_page index text :: map_pages (S index) rest
  end.

(** [saveToStorage]: the item becomes the array of the stored documents,
    unless [setItem] throws, which is caught.  (Numbers that are not finite
    would be written as [null]; the model does not follow them through the
    serialization.) *)
Definition saveToStorage (setItem_throws : bool) (e : Engine) (ls : Stored)
  : Stored :=
  if setItem_throws then ls
  else DocArray (map (fun kv => Some (snd kv)) (documents e)).

Definition addDocument (document : PDFDocument) (textContent : list string)
  (setItem_throws : bool) (st : Engine * Stored) : Engine * Stored :=
  let '(e, ls) := st in
  let embedding := {|
    id := doc_id document;
    name := doc_name document;
    pageEmbeddings := map_pages 0 textContent
  |} in
  let e' := {|
    documents := JsMap.set (doc_id document) embedding (documents e);
    isInitialized := isInitialized e
  |} in
  (e', saveToStorage setItem_throws e' ls).

Record Candidate := { section : RelatedSection; score : float }.

(** [currentDoc.pageEmbeddings[currentPage - 1]] *)
Definition page_at (doc : DocumentEmbedding) (currentPage : Z)
  : option PageEmbedding :=
  if (currentPage - 1 <? 0)%Z then None
  else nth_error (pageEmbeddings doc) (Z.to_nat (currentPage - 1)).

(** [selectedText || page?.text || ''] *)
Definition query_text (selectedText : option string)
  (page : option PageEmbedding) : string :=
  match selectedText with
  | Some (String c s) => String c s
  | _ =>
      match page with
      | Some p => text p
      | None => EmptyString
      end
  end.

Definition make_section (docId : string) (doc : DocumentEmbedding)
  (page : PageEmbedding) (similarity : float) : RelatedSection := {|
  section_id := docId ++ "-" ++ JsString.of_Z (pageNumber page);
  documentId := docId;
  documentName := name doc;
  section_pageNumber := pageNumber page;
  content := text page;
  snippet := JsString.prefix 150 (text page) ++ "...";
  relevanceScore := similarity;
  position := {| pos_x := 0; pos_y := 0; pos_width := 100; pos_height := 20 |}
|}.

Section Scan.
Variables (currentDocId : string) (currentPage : Z).
Variables (queryEmbedding : list float) (queryKeywords : list string).

(** The inner loop [for (const page of doc.pageEmbeddings)]. *)
Fixpoint scan_pages (docId : string) (doc : DocumentEmbedding)
  (pages : list PageEmbedding) (relatedSections : list Candidate)
  : list Candidate :=
  match pages with
  | [] => relatedSections
  | page :: rest =>
      if String.eqb docId currentDocId && (pageNumber page =? currentPage)%Z
      then scan_pages docId doc rest relatedSections
      else
        let similarity :=
          calculateSimilarity queryEmbedding (embedding page)
            queryKeywords (keywords page) in
        if PrimFloat.ltb F64.lit_0_3 similarity
        then scan_pages docId doc rest
               (relatedSections ++
                [{| section := make_section docId doc page similarity;
                    score := similarity |}])
        else scan_pages docId doc rest relatedSections
  end.

(** The outer loop [for (const [docId, doc] of this.documents.entries())]. *)
Fixpoint scan_docs (entries : list (string * DocumentEmbedding))
  (relatedSections : list Candidate) : list Candidate :=
  match entries with
  | [] => relatedSections
  | (docId, doc) :: rest =>
      scan_docs rest (scan_pages docId doc (pageEmbeddings doc) relatedSections)
  end.

End Scan.

(** The comparator [(a, b) => b.score - a.score] returned a positive number. *)
Definition by_score_after (a b : Candidate) : bool :=
  PrimFloat.ltb 0%float (PrimFloat.sub (score b) (score a)).

Definition findRelatedSections (currentDocId : string) (currentPage : Z)
  (selectedText : option string) (st : Engine * Stored)
  : Engine * list RelatedSection :=
  let '(e, ls) := st in
  let e := initialize ls e in
  match JsMap.get currentDocId (documents e) with
  | None => (e, [])
  | Some currentDoc =>
      let queryText := query_text selectedText (page_at currentDoc currentPage) in
      let queryEmbedding := generateSimpleEmbedding queryText in
      let queryKeywords := extractKeywords queryText in
      let relatedSections :=
        scan_docs currentDocId currentPage queryEmbedding queryKeywords
          (documents e) [] in
      (e, map section (firstn 5 (js_sort by_score_after relatedSections)))
  end.

(** [clearStorage] and [getDocumentCount] *)
Definition clearStorage (st : Engine * Stored) : Engine * Stored :=
  ({| documents := []; isInitialized := isInitialized (fst st) |}, NoItem).

Definition getDocumentCount (e : Engine) : nat := List.length (documents e).

(** ** Example data *)

Module Examples.

Definition docA : PDFDocument := {| doc_id := "A"; doc_name := "a.pdf" |}.
Definition docB : PDFDocument := {| doc_id := "B"; doc_name := "b.pdf" |}.

Definition start : Engine * Stored := (fresh, NoItem).

(** The two documents of the scenario of the specification. *)
Definition pagesA : list string :=
  ["machine learning models require training data";
   "the chef prepared a delicious meal"].
Definition pagesB : list string :=
  ["training data is essential for machine learning"].

Definition corpusAB : Engine * Stored :=
  addDocument docB pagesB false (addDocument docA pagesA false start).

Definition stored_pages (document : PDFDocument) (st : Engine * Stored)
  : option (list PageEmbedding) :=
  option_map pageEmbeddings (JsMap.get (doc_id document) (documents (fst st))).

(** Fifty-two distinct tokens of three characters. *)
Definition text52 : string :=
  "w01 w02 w03 w04 w05 w06 w07 w08 w09 w10 w11 w12 w13 w14 w15 w16 w17 w18 w19 w20 w21 w22 w23 w24 w25 w26 w27 w28 w29 w30 w31 w32 w33 w34 w35 w36 w37 w38 w39 w40 w41 w42 w43 w44 w45 w46 w47 w48 w49 w50 w51 w52".

(** Two texts with the same words in the same proportions, up to the short
    tokens at their ends. *)
Definition text_short : string :=
  "page page deep deep data data vector vector vector machine a".
Definition text_long : string :=
  "page page deep deep data data vector vector vector machine a b c".

(** A document as it is read back from storage. *)
Definition storedB : DocumentEmbedding := {|
  id := "B"; name := "b.pdf"; pageEmbeddings := map_pages 0 pagesB
|}.

End Examples.

(** ** Notions used in the statements *)

(** The load of [initialize] runs to its end: there is no item, or the item
    parses to an array whose elements can all be read. *)
Definition load_succeeds (ls : Stored) : bool :=
  match ls with
  | NoItem => true
  | DocArray items =>
      forallb (fun d => match d with Some _ => true | None => false end) items
  | _ => false
  end.

(** The pair that [findRelatedSections] leaves out. *)
Definition is_self (currentDocId : string) (currentPage : Z)
  (docId : string) (page : PageEmbedding) : bool :=
  String.eqb docId currentDocId && (pageNumber page =? currentPage)%Z.

Definition not_self (currentDocId : string) (currentPage : Z)
  (entry : string * DocumentEmbedding * PageEmbedding) : bool :=
  negb (is_self currentDocId currentPage (fst (fst entry)) (snd entry)).

(** Every stored page with its document, documents in map order and pages
    in stored order. *)
Definition all_pages (docs : list (string * DocumentEmbedding))
  : list (string * DocumentEmbedding * PageEmbedding) :=
  flat_map (fun kv => map (fun page => (fst kv, snd kv, page))
                          (pageEmbeddings (snd kv))) docs.

(** A stored page scored against a query. *)
Definition scored (queryEmbedding : list float) (queryKeywords : list string)
  (entry : string * DocumentEmbedding * PageEmbedding) : Candidate :=
  let '(docId, doc, page) := entry in
  let similarity :=
    calculateSimilarity queryEmbedding (embedding page)
      queryKeywords (keywords page) in
  {| section := make_section docId doc page similarity; score := similarity |}.

Definition above_threshold (c : Candidate) : bool :=
  PrimFloat.ltb F64.lit_0_3 (score c).

(** The pages other than the excluded pair, scored, those above the
    threshold kept, in scan order. *)
Definition candidates (currentDocId : string) (currentPage : Z)
  (queryEmbedding : list float) (queryKeywords : list string)
  (docs : list (string * DocumentEmbedding)) : list Candidate :=
  filter above_threshold
    (map (scored queryEmbedding queryKeywords)
       (filter (not_self currentDocId currentPage) (all_pages docs))).

(** The ranking step: sort by score, keep five, project the sections. *)
Definition rank (found : list Candidate) : list RelatedSection :=
  map section (firstn 5 (js_sort by_score_after found)).

(** The word tokens of a text and the map built from them by
    [generateSimpleEmbedding]. *)
Definition tokens (text : string) : list string :=
  JsString.match_words (JsString.toLowerCase text).

Definition wordCount (text : string) : list (string * nat) :=
  fold_left count_word (tokens text) [].

(** Tokens that pass the length filter. *)
Definition is_long (word : string) : bool := (2 <? String.length word)%nat.

(** The two feature functions, which [addDocument] and
    [findRelatedSections] always call side by side on the same text. *)
Definition extract (text : string) : list float * list string :=
  (generateSimpleEmbedding text, extractKeywords text).

(** What the map holds once the tokens [seen] have gone through
    [count_word]. *)
Definition counts_of (seen : list string) (m : list (string * nat)) : Prop :=
  NoDup (map fst m)
  /\ (forall w c, In (w, c) m -> is_long w = true)
  /\ (forall w, is_long w = true ->
        lookup_count w m = count_occ string_dec seen w).

(** The accumulators of the loop over exact reals stay non-negative and
    satisfy the inequality of Cauchy and Schwarz. *)
Definition cs_invariant (acc : R * R * R) : Prop :=
  let '(d, n1, n2) := acc in
  (0 <= d /\ 0 <= n1 /\ 0 <= n2 /\ d * d <= n1 * n2)%R.

(** ** Notions used in the further properties *)

(** The hash of the specification: [hash * 31 + charCode], not wrapped. *)
Fixpoint poly31 (hash : Z) (s : string) : Z :=
  match s with
  | EmptyString => hash
  | String c s' => poly31 (31 * hash + JsString.charCode c) s'
  end.

Fixpoint string_forall (p : ascii -> bool) (s : string) : bool :=
  match s with
  | EmptyString => true
  | String c s' => p c && string_forall p s'
  end.

(** A word character that is not an upper-case letter. *)
Definition is_token_char (c : ascii) : bool :=
  JsString.is_word c && negb (JsString.is_upper c).

(** The tokens of four characters and more, and the map that
    [extractKeywords] builds from them. *)
Definition words4 (text : string) : list string :=
  JsString.match_words4 (JsString.toLowerCase text).

Definition frequency (text : string) : list (string * nat) :=
  fold_left count_keyword (words4 text) [].

(** What the map holds once the tokens [seen] have gone through
    [count_keyword]. *)
Definition keyword_counts_of (seen : list string) (m : list (string * nat))
  : Prop :=
  NoDup (map fst m)
  /\ (forall w c, In (w, c) m -> isStopWord w = false /\ In w seen)
  /\ (forall w, isStopWord w = false ->
        lookup_count w m = count_occ string_dec seen w).

(** The elements of [l] that are not in [seen], each at its first
    occurrence. *)
Fixpoint first_occurrences (seen l : list string) : list string :=
  match l with
  | [] => []
  | w :: rest =>
      if existsb (String.eqb w) seen then first_occurrences seen rest
      else w :: first_occurrences (seen ++ [w]) rest
  end.

Definition distinct (l : list string) : list string := first_occurrences [] l.

(** The tokens that [extractKeywords] counts. *)
Definition keyword_tokens (text : string) : list string :=
  filter (fun w => negb (isStopWord w)) (words4 text).

(** The document that a read of the array leaves under key [k]: the last
    readable element with that id before the first unreadable one. *)
Fixpoint stored_copy (k : string) (items : list (option DocumentEmbedding))
  (found : option DocumentEmbedding) : option DocumentEmbedding :=
  match items with
  | [] => found
  | Some doc :: rest =>
      stored_copy k rest (if String.eqb k (id doc) then Some doc else found)
  | None :: _ => found
  end.

(** The elements that [load_items] reads: those before the first one that
    cannot be read. *)
Fixpoint readable_prefix (items : list (option DocumentEmbedding))
  : list DocumentEmbedding :=
  match items with
  | Some doc :: rest => doc :: readable_prefix rest
  | _ => []
  end.

(** Every document is filed under its own id, once. *)
Definition well_keyed (docs : list (string * DocumentEmbedding)) : Prop :=
  NoDup (map fst docs) /\ Forall (fun kv => fst kv = id (snd kv)) docs.

(** The candidates of a query, as [findRelatedSections] resolves it. *)
Definition query_candidates (currentDocId : string) (currentPage : Z)
  (selectedText : option string) (docs : list (string * DocumentEmbedding))
  : list Candidate :=
  match JsMap.get currentDocId docs with
  | None => []
  | Some currentDoc =>
      let queryText := query_text selectedText (page_at currentDoc currentPage) in
      candidates currentDocId currentPage (generateSimpleEmbedding queryText)
        (extractKeywords queryText) docs
  end.



(** ** The uploader

    What [DocumentUploader] does between reading a file and calling the
    engine: the page texts are strung together by [extractPDFTextLocally]
    and the result is cut at blank lines. *)

Module Uploader.
Local Open Scope string_scope.

(** The line feed. *)
Definition lf : ascii := ascii_of_nat 10.
Definition is_lf (c : ascii) : bool := Ascii.eqb c lf.

(** The separator ['\n\n']. *)
Definition blank_line : string := String lf (String lf EmptyString).

(** [text.split('\n\n')]: the text is cut at each occurrence of the
    separator, searched from the left after the previous cut; [cur] is the
    piece being read. *)
Fixpoint split_loop (cur : string) (s : string) : list string :=
  match s with
  | EmptyString => [cur]
  | String c s' =>
      match s' with
      | String c' s'' =>
          if is_lf c && is_lf c' then cur :: split_loop EmptyString s''
          else split_loop (cur ++ String c EmptyString) s'
      | EmptyString => split_loop (cur ++ String c EmptyString) s'
      end
  end.

Definition split_paragraphs (text : string) : list string :=
  split_loop EmptyString text.

(** [pieces.join('\n\n')] *)
Fixpoint join (pieces : list string) : string :=
  match pieces with
  | [] => EmptyString
  | [piece] => piece
  | piece :: rest => piece ++ blank_line ++ join rest
  end.

(** The first line of a page block. *)
Definition page_header (pageNum : Z) : string :=
  "--- Page " ++ JsString.of_Z pageNum ++ " ---".

(** One round of the loop of [extractPDFTextLocally]: the text appended for
    page [pageNum], whose items joined by spaces are [pageText]. *)
Definition page_block (pageNum : Z) (pageText : string) : string :=
  blank_line ++ page_header pageNum ++ String lf pageText.

Fixpoint extract_loop (pageNum : Z) (pages : list string) (fullText : string)
  : string :=
  match pages with
  | [] => fullText
  | pageText :: rest =>
      extract_loop (pageNum + 1) rest (fullText ++ page_block pageNum pageText)
  end.

(** [extractPDFTextLocally]: [pdf] is the text of each page when the
    document can be read, [None] when anything throws. *)
Definition extractPDFTextLocally (fileName : string) (pdf : option (list string))
  : string :=
  match pdf with
  | Some pages => extract_loop 1 pages EmptyString
  | None => "Sample text from " ++ fileName
  end.

(** What [openFreshPDF] and [uploadLibraryPDFs] hand to the engine. *)
Definition index_locally (document : PDFDocument) (fileName : string)
  (pdf : option (list string)) (setItem_throws : bool) (st : Engine * Stored)
  : Engine * Stored :=
  let text := extractPDFTextLocally fileName pdf in
  addDocument document (split_paragraphs text) setItem_throws st.

(** The pieces expected from a readable document, from page [pageNum] on. *)
Fixpoint page_pieces (pageNum : Z) (pages : list string) : list string :=
  match pages with
  | [] => []
  | pageText :: rest =>
      (page_header pageNum ++ String lf pageText) :: page_pieces (pageNum + 1) rest
  end.

(** A page text with at least one character and no line feed. *)
Definition plain (pageText : string) : Prop :=
  pageText <> EmptyString
  /\ string_forall (fun c => negb (is_lf c)) pageText = true.

(** The text built by [extract_loop], as one concatenation. *)
Fixpoint page_blocks (pageNum : Z) (pages : list string) : string :=
  match pages with
  | [] => EmptyString
  | pageText :: rest => page_block pageNum pageText ++ page_blocks (pageNum + 1) rest
  end.

End Uploader.

(** * Properties *)

(** ** Maps and sorting *)

Lemma get_set_same {V : Type} (k : string) (v : V) (m : list (string * V)) :
  JsMap.get k (JsMap.set k v m) = Some v.
Proof.
  induction m as [|[k' v'] m IH]; simpl.
  - now rewrite String.eqb_refl.
  - destruct (String.eqb k k') eqn:E; simpl; rewrite ?E, ?String.eqb_refl; auto.
Qed.

Lemma get_set_other {V : Type} (k k0 : string) (v : V) (m : list (string * V)) :
  k0 <> k -> JsMap.get k0 (JsMap.set k v m) = JsMap.get k0 m.
Proof.
  intros Hne. induction m as [|[k' v'] m IH]; simpl.
  - apply String.eqb_neq in Hne. now rewrite Hne.
  - destruct (String.eqb k k') eqn:E; simpl.
    + apply String.eqb_eq in E. subst k'.
      apply String.eqb_neq in Hne. now rewrite Hne.
    + now rewrite IH.
Qed.

Section SortFacts.
Context {A : Type}.
Variable after : A -> A -> bool.

Lemma js_insert_In (x a : A) (l : list A) :
  In x (js_insert after a l) <-> x = a \/ In x l.
Proof.
  induction l as [|y l IH]; simpl.
  - intuition.
  - destruct (after a y); simpl; rewrite ?IH; intuition.
Qed.

Lemma js_sort_In (x : A) (l : list A) : In x (js_sort after l) <-> In x l.
Proof.
  induction l as [|a l IH]; simpl.
  - tauto.
  - rewrite js_insert_In, IH. intuition.
Qed.

Lemma js_sort_Forall (P : A -> Prop) (l : list A) :
  Forall P l -> Forall P (js_sort after l).
Proof.
  rewrite !Forall_forall. intros H x Hx. apply H. now apply js_sort_In.
Qed.

(** Insertion keeps a list sorted for any relation that the comparator
    decides in both directions on the elements at hand. *)
Variable le : A -> A -> Prop.
Variable ok : A -> Prop.
Hypothesis after_le : forall a b, ok a -> ok b -> after a b = true -> le b a.
Hypothesis not_after_le : forall a b, ok a -> ok b -> after a b = false -> le a b.

Lemma js_insert_Sorted (a : A) (l : list A) :
  ok a -> Forall ok l -> Sorted le l -> Sorted le (js_insert after a l).
Proof.
  intros Ha Hl Hs. induction l as [|y l IH]; simpl.
  - repeat constructor.
  - destruct (after a y) eqn:E.
    + inversion Hl as [|? ? Hy Hl']; subst.
      inversion Hs as [|? ? Hs' Hhd]; subst.
      constructor; [now apply IH|].
      destruct l as [|z l]; simpl.
      * constructor. now apply after_le.
      * destruct (after a z); constructor.
        -- now inversion Hhd.
        -- now apply after_le.
    + inversion Hl; subst. constructor; [assumption|].
      constructor. now apply not_after_le.
Qed.

Lemma js_sort_Sorted (l : list A) : Forall ok l -> Sorted le (js_sort after l).
Proof.
  induction l as [|a l IH]; simpl; intros H.
  - constructor.
  - inversion H; subst. apply js_insert_Sorted; auto.
    now apply js_sort_Forall.
Qed.

End SortFacts.

Lemma Sorted_firstn {A : Type} (le : A -> A -> Prop) (n : nat) (l : list A) :
  Sorted le l -> Sorted le (firstn n l).
Proof.
  revert l. induction n as [|n IH]; intros l Hs; simpl.
  - constructor.
  - destruct l as [|x l]; [constructor|].
    inversion Hs as [|? ? Hs' Hhd]; subst.
    constructor; [now apply IH|].
    destruct l as [|y l]; destruct n; simpl; constructor.
    now inversion Hhd.
Qed.

Lemma Sorted_map {A B : Type} (f : A -> B) (le : B -> B -> Prop) (l : list A) :
  Sorted (fun a b => le (f a) (f b)) l -> Sorted le (map f l).
Proof.
  induction 1 as [|x l Hs IH Hhd]; simpl; constructor; auto.
  destruct Hhd; simpl; constructor; auto.
Qed.

Lemma firstn_incl {A : Type} (n : nat) (l : list A) (x : A) :
  In x (firstn n l) -> In x l.
Proof.
  revert l. induction n as [|n IH]; intros [|y l]; simpl; try tauto.
  intros [->|H]; auto.
Qed.

Lemma firstn_Forall {A : Type} (P : A -> Prop) (n : nat) (l : list A) :
  Forall P l -> Forall P (firstn n l).
Proof.
  rewrite !Forall_forall. intros H x Hx. apply H. eapply firstn_incl; eauto.
Qed.

(** ** Ingestion *)

Lemma map_pages_length (index : nat) (textContent : list string) :
  List.length (map_pages index textContent) = List.length textContent.
Proof.
  revert index. induction textContent as [|t l IH]; intros index; simpl; auto.
Qed.

Lemma map_pages_nth (textContent : list string) (index i : nat) :
  nth_error (map_pages index textContent) i =
  option_map (embed_page (index + i)) (nth_error textContent i).
Proof.
  revert index i. induction textContent as [|t l IH]; intros index [|i]; simpl; auto.
  - now rewrite Nat.add_0_r.
  - rewrite IH. now rewrite Nat.add_succ_r.
Qed.

Lemma map_pages_number (textContent : list string) (i : nat) (p : PageEmbedding) :
  nth_error (map_pages 0 textContent) i = Some p -> pageNumber p = (Z.of_nat i + 1)%Z.
Proof.
  rewrite map_pages_nth. destruct (nth_error textContent i); simpl; [|discriminate].
  intros [= <-]. reflexivity.
Qed.

Lemma addDocument_stored (document : PDFDocument) (textContent : list string)
    (setItem_throws : bool) (st : Engine * Stored) :
  JsMap.get (doc_id document)
    (documents (fst (addDocument document textContent setItem_throws st))) =
  Some {| id := doc_id document; name := doc_name document;
          pageEmbeddings := map_pages 0 textContent |}.
Proof.
  destruct st as [e ls]. simpl. apply get_set_same.
Qed.

(** C1, as stated, fails: an empty text segment is not skipped, it is stored
    as a page of its own, and a document ingested with no segment at all is
    stored with an empty page sequence. *)
Lemma addDocument_stores_empty_segments :
  Examples.stored_pages Examples.docA
    (addDocument Examples.docA [EmptyString; "abc"] false Examples.start)
  = Some [embed_page 0 EmptyString; embed_page 1 "abc"]
  /\ Examples.stored_pages Examples.docA
       (addDocument Examples.docA [] false Examples.start) = Some [].
Proof. split; reflexivity. Qed.

(** C1, amended: every text segment, empty or not, produces one stored page;
    an empty segment gives a page with empty text, the zero vector and no
    keyword; the stored page sequence is empty exactly when no segment was
    supplied. *)
Theorem addDocument_one_page_per_segment (document : PDFDocument)
    (textContent : list string) (setItem_throws : bool) (st : Engine * Stored) :
  exists entry,
    JsMap.get (doc_id document)
      (documents (fst (addDocument document textContent setItem_throws st)))
    = Some entry
    /\ List.length (pageEmbeddings entry) = List.length textContent
    /\ (pageEmbeddings entry = [] <-> textContent = [])
    /\ (forall i, nth_error textContent i = Some EmptyString ->
          exists p, nth_error (pageEmbeddings entry) i = Some p
                    /\ text p = EmptyString
                    /\ embedding p = repeat 0%float 100
                    /\ keywords p = []).
Proof.
  eexists. split; [apply addDocument_stored|]. simpl.
  split; [apply map_pages_length|]. split.
  - destruct textContent; simpl; split; congruence.
  - intros i Hi. rewrite map_pages_nth, Hi. simpl.
    eexists. split; [reflexivity|]. repeat split.
Qed.

(** C10: a document stored by [addDocument] has one page per text segment,
    the page at 0-based position [i] has number [i + 1], and for a page
    number between 1 and the number of segments the positional lookup of
    [findRelatedSections] returns the one stored page with that number. *)
Theorem addDocument_positional_lookup (document : PDFDocument)
    (textContent : list string) (setItem_throws : bool) (st : Engine * Stored)
    (currentPage : Z) :
  (1 <= currentPage <= Z.of_nat (List.length textContent))%Z ->
  exists entry p,
    JsMap.get (doc_id document)
      (documents (fst (addDocument document textContent setItem_throws st)))
    = Some entry
    /\ List.length (pageEmbeddings entry) = List.length textContent
    /\ (forall i q, nth_error (pageEmbeddings entry) i = Some q ->
          pageNumber q = (Z.of_nat i + 1)%Z)
    /\ page_at entry currentPage = Some p
    /\ pageNumber p = currentPage
    /\ (forall q, In q (pageEmbeddings entry) -> pageNumber q = currentPage ->
          q = p).
Proof.
  intros Hrange.
  assert (Hlt : (Z.to_nat (currentPage - 1) < List.length (map_pages 0 textContent))%nat)
    by (rewrite map_pages_length; lia).
  destruct (nth_error (map_pages 0 textContent) (Z.to_nat (currentPage - 1)))
    as [p|] eqn:Hp; [|apply nth_error_None in Hp; lia].
  eexists; exists p. split; [apply addDocument_stored|]. simpl.
  split; [apply map_pages_length|].
  split; [intros i q; apply map_pages_number|].
  assert (Hnum : pageNumber p = currentPage)
    by (apply map_pages_number in Hp; lia).
  split; [|split; [exact Hnum|]].
  - unfold page_at. simpl.
    destruct (currentPage - 1 <? 0)%Z eqn:E; [apply Z.ltb_lt in E; lia|exact Hp].
  - intros q Hin Hq. apply In_nth_error in Hin. destruct Hin as [i Hi].
    pose proof (map_pages_number _ _ _ Hi) as Hqi.
    assert (i = Z.to_nat (currentPage - 1)) by lia. subst i. congruence.
Qed.

Lemma addDocument_positional_lookup_witness :
  (1 <= 2 <= Z.of_nat (List.length Examples.pagesA))%Z
  /\ exists entry p,
       JsMap.get (doc_id Examples.docA)
         (documents (fst (addDocument Examples.docA Examples.pagesA false
                            Examples.start)))
       = Some entry
       /\ List.length (pageEmbeddings entry) = List.length Examples.pagesA
       /\ (forall i q, nth_error (pageEmbeddings entry) i = Some q ->
             pageNumber q = (Z.of_nat i + 1)%Z)
       /\ page_at entry 2 = Some p
       /\ pageNumber p = 2%Z
       /\ (forall q, In q (pageEmbeddings entry) -> pageNumber q = 2%Z -> q = p).
Proof.
  split; [simpl; lia|].
  apply (addDocument_positional_lookup Examples.docA Examples.pagesA false
           Examples.start 2).
  simpl; lia.
Defined.

(** ** Loading *)

Lemma load_items_completed (items : list (option DocumentEmbedding))
    (docs : list (string * DocumentEmbedding)) :
  snd (load_items items docs) =
  forallb (fun d => match d with Some _ => true | None => false end) items.
Proof.
  revert docs. induction items as [|[d|] items IH]; intros docs; simpl; auto.
Qed.

Lemma initialize_flag (ls : Stored) (e : Engine) :
  isInitialized (initialize ls e) = isInitialized e || load_succeeds ls.
Proof.
  unfold initialize. destruct (isInitialized e) eqn:E; simpl; [exact E|].
  destruct ls; simpl; auto.
  rewrite <- (load_items_completed items (documents e)).
  destruct (load_items items (documents e)); reflexivity.
Qed.

Lemma initialize_noop (ls : Stored) (e : Engine) :
  isInitialized e = true -> initialize ls e = e.
Proof. unfold initialize. now intros ->. Qed.

(** C3, as stated, fails: after a load whose payload does not parse the
    engine is not initialized, and the next load is not a no-op: it reads
    the store again. *)
Lemma initialize_failed_load_not_ready :
  isInitialized (initialize Unparsable fresh) = false
  /\ initialize (DocArray [Some Examples.storedB]) (initialize Unparsable fresh)
     <> initialize Unparsable fresh.
Proof. split; [reflexivity|discriminate]. Qed.

(** C3, amended: the engine is initialized after a load exactly when it was
    already initialized or the load ran to its end (no stored item, or a
    payload that parses to an array of readable documents); on an
    initialized engine a load is a no-op, so a load that succeeded is never
    repeated; a load that fails on reading or parsing is swallowed, leaves
    the engine as it was, uninitialized, and the next call loads again. *)
Theorem initialize_ready_iff_load_succeeds (ls ls' : Stored) (e : Engine) :
  isInitialized (initialize ls e) = isInitialized e || load_succeeds ls
  /\ (isInitialized e = true -> initialize ls e = e)
  /\ (load_succeeds ls = true ->
        initialize ls' (initialize ls e) = initialize ls e)
  /\ (isInitialized e = false ->
        ls = GetItemThrows \/ ls = Unparsable \/ ls = NotAnArray ->
        initialize ls e = e
        /\ initialize ls' (initialize ls e) = initialize ls' e).
Proof.
  split; [apply initialize_flag|].
  split; [apply initialize_noop|]. split.
  - intros Hok. apply initialize_noop. rewrite initialize_flag, Hok.
    apply orb_true_r.
  - intros Hno Hls.
    assert (Hsame : initialize ls e = e)
      by (unfold initialize; rewrite Hno; destruct Hls as [->|[->| ->]]; reflexivity).
    now rewrite Hsame.
Qed.

(** ** Scanning the corpus *)

Section ScanFacts.
Variables (currentDocId : string) (currentPage : Z).
Variables (queryEmbedding : list float) (queryKeywords : list string).

Lemma scan_pages_spec (docId : string) (doc : DocumentEmbedding)
    (pages : list PageEmbedding) (relatedSections : list Candidate) :
  scan_pages currentDocId currentPage queryEmbedding queryKeywords
    docId doc pages relatedSections =
  relatedSections ++
  filter above_threshold
    (map (scored queryEmbedding queryKeywords)
       (filter (not_self currentDocId currentPage)
          (map (fun page => (docId, doc, page)) pages))).
Proof.
  revert relatedSections.
  induction pages as [|page pages IH]; intros relatedSections; simpl.
  - now rewrite app_nil_r.
  - unfold not_self at 1, is_self. simpl.
    destruct (String.eqb docId currentDocId && (pageNumber page =? currentPage)%Z);
      simpl; [apply IH|].
    unfold above_threshold at 1. simpl.
    destruct (PrimFloat.ltb F64.lit_0_3 _); rewrite IH; [|reflexivity].
    now rewrite <- app_assoc.
Qed.

Lemma scan_docs_spec (docs : list (string * DocumentEmbedding))
    (relatedSections : list Candidate) :
  scan_docs currentDocId currentPage queryEmbedding queryKeywords
    docs relatedSections =
  relatedSections ++
  candidates currentDocId currentPage queryEmbedding queryKeywords docs.
Proof.
  unfold candidates. revert relatedSections.
  induction docs as [|[docId doc] docs IH]; intros relatedSections; simpl.
  - now rewrite app_nil_r.
  - rewrite IH, scan_pages_spec.
    rewrite filter_app, map_app, filter_app, app_assoc. reflexivity.
Qed.

Lemma candidates_not_self (c : Candidate)
    (docs : list (string * DocumentEmbedding)) :
  In c (candidates currentDocId currentPage queryEmbedding queryKeywords docs) ->
  ~ (documentId (section c) = currentDocId
     /\ section_pageNumber (section c) = currentPage).
Proof.
  unfold candidates. rewrite filter_In, in_map_iff.
  intros [([[docId doc] page] & <- & Hin) _].
  apply filter_In in Hin. destruct Hin as [_ Hkeep].
  simpl in *. intros [Hd Hp]. subst.
  unfold not_self, is_self in Hkeep. simpl in Hkeep. rewrite String.eqb_refl, Z.eqb_refl in Hkeep.
  discriminate.
Qed.

Lemma candidates_above_threshold (c : Candidate)
    (docs : list (string * DocumentEmbedding)) :
  In c (candidates currentDocId currentPage queryEmbedding queryKeywords docs) ->
  PrimFloat.ltb F64.lit_0_3 (score c) = true
  /\ relevanceScore (section c) = score c.
Proof.
  unfold candidates. rewrite filter_In, in_map_iff.
  intros [([[docId doc] page] & <- & Hin) Hab]. split; [exact Hab|reflexivity].
Qed.

End ScanFacts.

Lemma findRelatedSections_spec (currentDocId : string) (currentPage : Z)
    (selectedText : option string) (e : Engine) (ls : Stored) :
  snd (findRelatedSections currentDocId currentPage selectedText (e, ls)) =
  match JsMap.get currentDocId (documents (initialize ls e)) with
  | None => []
  | Some currentDoc =>
      let queryText := query_text selectedText (page_at currentDoc currentPage) in
      rank (candidates currentDocId currentPage
              (generateSimpleEmbedding queryText) (extractKeywords queryText)
              (documents (initialize ls e)))
  end.
Proof.
  unfold findRelatedSections.
  destruct (JsMap.get currentDocId (documents (initialize ls e))); simpl; auto.
  now rewrite scan_docs_spec.
Qed.

Lemma rank_In (r : RelatedSection) (found : list Candidate) :
  In r (rank found) -> exists c, In c found /\ section c = r.
Proof.
  unfold rank. rewrite in_map_iff. intros (c & Hc & Hin).
  exists c. split; [|exact Hc].
  apply firstn_incl in Hin. now apply js_sort_In in Hin.
Qed.

(** C7: no returned section has both the document id and the page number of
    the query. *)
Theorem findRelatedSections_excludes_self (currentDocId : string)
    (currentPage : Z) (selectedText : option string) (st : Engine * Stored) :
  Forall (fun r => ~ (documentId r = currentDocId
                      /\ section_pageNumber r = currentPage))
    (snd (findRelatedSections currentDocId currentPage selectedText st)).
Proof.
  destruct st as [e ls]. rewrite findRelatedSections_spec.
  destruct (JsMap.get currentDocId (documents (initialize ls e))); [|constructor].
  apply Forall_forall. intros r Hr.
  apply rank_In in Hr. destruct Hr as (c & Hc & <-).
  eapply candidates_not_self; eauto.
Qed.

(** ** The query source and the unknown document *)

(** C2, as stated, fails: with a document id that is not in the corpus the
    result is empty although the query text is given and two stored pages
    score above the threshold against it. *)
Lemma findRelatedSections_unknown_id_is_empty :
  let queryText := "training data machine learning" in
  snd (findRelatedSections "Z" 1 (Some queryText) Examples.corpusAB) = []
  /\ map (fun c => section_id (section c))
       (candidates "Z" 1 (generateSimpleEmbedding queryText)
          (extractKeywords queryText) (documents (fst Examples.corpusAB)))
     = ["A-1"; "B-1"].
Proof. split; vm_compute; reflexivity. Qed.

(** C2, amended: with a non-empty query text, when the current document id
    is in the corpus the query source is that text and every stored page
    other than the excluded pair is scored against it, the pages above the
    threshold being ranked; when the id is not in the corpus the result is
    empty, whatever the text. *)
Theorem findRelatedSections_explicit_query (currentDocId : string)
    (currentPage : Z) (queryText : string) (st : Engine * Stored) :
  queryText <> EmptyString ->
  let docs := documents (initialize (snd st) (fst st)) in
  snd (findRelatedSections currentDocId currentPage (Some queryText) st) =
  match JsMap.get currentDocId docs with
  | None => []
  | Some _ =>
      rank (candidates currentDocId currentPage
              (generateSimpleEmbedding queryText) (extractKeywords queryText)
              docs)
  end.
Proof.
  intros Hq docs. destruct st as [e ls]. rewrite findRelatedSections_spec.
  subst docs. simpl.
  destruct (JsMap.get currentDocId (documents (initialize ls e))); [|reflexivity].
  destruct queryText; [congruence|reflexivity].
Qed.

Lemma findRelatedSections_explicit_query_witness :
  let queryText := "training data machine learning" in
  queryText <> EmptyString
  /\ snd (findRelatedSections "A" 2 (Some queryText) Examples.corpusAB) =
     rank (candidates "A" 2 (generateSimpleEmbedding queryText)
             (extractKeywords queryText)
             (documents (initialize (snd Examples.corpusAB)
                           (fst Examples.corpusAB)))).
Proof.
  split; [discriminate|].
  apply (findRelatedSections_explicit_query "A" 2
           "training data machine learning" Examples.corpusAB).
  discriminate.
Defined.

(** ** The embedding loop *)

Lemma generateSimpleEmbedding_unfold (text : string) :
  generateSimpleEmbedding text =
  embed_loop (List.length (tokens text)) (wordCount text) (repeat 0%float 100) 0.
Proof. reflexivity. Qed.

(** The counter is tested after it is incremented and the entry folded, so
    the loop started at [index] folds as many entries as separate [index]
    from 51. *)
Lemma embed_loop_fold (len : nat) (entries : list (string * nat))
    (embedding : list float) (index k : nat) :
  (index + S k = 51)%nat ->
  embed_loop len entries embedding index =
  fold_left (fold_entry len) (firstn (S k) entries) embedding.
Proof.
  revert embedding index k.
  induction entries as [|entry rest IH]; intros embedding index k Hk.
  - reflexivity.
  - cbn [embed_loop firstn fold_left].
    destruct (50 <? S index)%nat eqn:E.
    + apply Nat.ltb_lt in E. assert (k = 0)%nat by lia. subst k. reflexivity.
    + apply Nat.ltb_ge in E. destruct k as [|k]; [lia|].
      apply IH. lia.
Qed.

Lemma generateSimpleEmbedding_cap (text : string) :
  generateSimpleEmbedding text =
  fold_left (fold_entry (List.length (tokens text)))
    (firstn 51 (wordCount text)) (repeat 0%float 100).
Proof.
  rewrite generateSimpleEmbedding_unfold. now apply embed_loop_fold.
Qed.

(** C4 at a text of 52 distinct tokens: the 51st distinct token, [w51], is
    folded into the vector (its bucket, which no other token of the text
    shares, holds its weight 1/52), and only the 52nd is left out. *)
Theorem generateSimpleEmbedding_folds_51st_token :
  let e := generateSimpleEmbedding Examples.text52 in
  nth_error (map fst (wordCount Examples.text52)) 50 = Some "w51"
  /\ nth_error (map fst (wordCount Examples.text52)) 51 = Some "w52"
  /\ filter (fun w => (bucket w =? 51)%nat) (tokens Examples.text52) = ["w51"]
  /\ nth 51 e 0%float = PrimFloat.div 1 52
  /\ bucket "w52" = 52%nat
  /\ nth 52 e 0%float = 0%float.
Proof. repeat split; vm_compute; reflexivity. Qed.

(** ** Occurrence counts *)

Lemma set_In {V : Type} (k : string) (v : V) (m : list (string * V))
    (k' : string) (v' : V) :
  In (k', v') (JsMap.set k v m) -> (k', v') = (k, v) \/ In (k', v') m.
Proof.
  induction m as [|[k0 v0] m IH]; simpl.
  - intros [H|[]]; auto.
  - destruct (String.eqb k k0); simpl; intros [H|H]; auto.
    destruct (IH H); auto.
Qed.

Lemma set_keys {V : Type} (k : string) (v : V) (m : list (string * V))
    (k' : string) :
  In k' (map fst (JsMap.set k v m)) <-> k' = k \/ In k' (map fst m).
Proof.
  induction m as [|[k0 v0] m IH]; simpl.
  - intuition.
  - destruct (String.eqb k k0) eqn:E; simpl.
    + apply String.eqb_eq in E. subst k0. intuition.
    + rewrite IH. intuition.
Qed.

Lemma set_NoDup {V : Type} (k : string) (v : V) (m : list (string * V)) :
  NoDup (map fst m) -> NoDup (map fst (JsMap.set k v m)).
Proof.
  induction m as [|[k0 v0] m IH]; simpl; intros Hnd.
  - repeat constructor. intros [].
  - inversion Hnd as [|? ? Hnotin Hnd']; subst.
    destruct (String.eqb k k0) eqn:E; simpl.
    + apply String.eqb_eq in E. subst k0. now constructor.
    + constructor; [|now apply IH].
      rewrite set_keys. intros [->|Hin]; [|contradiction].
      now rewrite String.eqb_refl in E.
Qed.

Lemma get_In {V : Type} (k : string) (v : V) (m : list (string * V)) :
  NoDup (map fst m) -> In (k, v) m -> JsMap.get k m = Some v.
Proof.
  induction m as [|[k0 v0] m IH]; simpl; intros Hnd Hin; [contradiction|].
  inversion Hnd as [|? ? Hnotin Hnd']; subst.
  destruct Hin as [[= -> ->]|Hin].
  - now rewrite String.eqb_refl.
  - destruct (String.eqb k k0) eqn:E; [|now apply IH].
    apply String.eqb_eq in E. subst k0.
    exfalso. apply Hnotin. change k with (fst (k, v)). now apply in_map.
Qed.

Lemma count_word_counts (seen : list string) (m : list (string * nat))
    (word : string) :
  counts_of seen m -> counts_of (seen ++ [word]) (count_word m word).
Proof.
  intros (Hnd & Hlong & Hcount). unfold count_word. fold (is_long word).
  destruct (is_long word) eqn:E.
  - split; [now apply set_NoDup|]. split.
    + intros w c Hin. apply set_In in Hin. destruct Hin as [[= -> ->]|Hin]; eauto.
    + intros w Hw. rewrite count_occ_app. simpl. unfold lookup_count at 1.
      destruct (string_dec word w) as [->|Hne].
      * rewrite get_set_same. rewrite Hcount by assumption. lia.
      * rewrite get_set_other by congruence.
        fold (lookup_count w m). rewrite Hcount by assumption. lia.
  - split; [assumption|]. split; [assumption|].
    intros w Hw. rewrite count_occ_app. simpl.
    destruct (string_dec word w) as [->|Hne]; [congruence|].
    rewrite Hcount by assumption. lia.
Qed.

Lemma fold_count_word_counts (l seen : list string) (m : list (string * nat)) :
  counts_of seen m -> counts_of (seen ++ l) (fold_left count_word l m).
Proof.
  revert seen m. induction l as [|word l IH]; intros seen m Hm; simpl.
  - now rewrite app_nil_r.
  - replace (seen ++ word :: l) with ((seen ++ [word]) ++ l)
      by (now rewrite <- app_assoc).
    apply IH. now apply count_word_counts.
Qed.

Lemma wordCount_counts (text : string) : counts_of (tokens text) (wordCount text).
Proof.
  apply (fold_count_word_counts (tokens text) [] []).
  split; [constructor|]. split; [intros w c []|reflexivity].
Qed.

(** C5, as stated, fails: in "ab abc" one token passes the length filter and
    it occurs once, yet the weight added to its bucket is 1/2, not 1/1: the
    short token counts in the denominator. *)
Lemma generateSimpleEmbedding_divides_by_all_tokens :
  filter is_long (tokens "ab abc") = ["abc"]
  /\ wordCount "ab abc" = [("abc", 1%nat)]
  /\ nth (bucket "abc") (generateSimpleEmbedding "ab abc") 0%float
     = PrimFloat.div 1 2
  /\ PrimFloat.eqb (PrimFloat.div 1 2) (PrimFloat.div 1 1) = false.
Proof. repeat split; vm_compute; reflexivity. Qed.

(** C5, amended: each of the (first 51) entries of the map adds, into the
    bucket of its token, the token's occurrence count divided by the number
    of all word tokens of the text, those of length 1 and 2 included; the
    entries are the tokens longer than 2, each with its number of
    occurrences. *)
Theorem generateSimpleEmbedding_weights (text : string) :
  generateSimpleEmbedding text =
  fold_left
    (fun embedding entry =>
       add_at (bucket (fst entry))
         (PrimFloat.div (F64.of_nat (snd entry))
                        (F64.of_nat (List.length (tokens text))))
         embedding)
    (firstn 51 (wordCount text)) (repeat 0%float 100)
  /\ NoDup (map fst (wordCount text))
  /\ (forall w c, In (w, c) (wordCount text) ->
        (2 < String.length w)%nat
        /\ c = count_occ string_dec (tokens text) w)
  /\ (forall w, In w (tokens text) -> (2 < String.length w)%nat ->
        In w (map fst (wordCount text))).
Proof.
  destruct (wordCount_counts text) as (Hnd & Hlong & Hcount).
  split; [apply generateSimpleEmbedding_cap|]. split; [exact Hnd|]. split.
  - intros w c Hin. pose proof (Hlong _ _ Hin) as Hw.
    split; [now apply Nat.ltb_lt|].
    rewrite <- (Hcount w Hw). unfold lookup_count.
    now rewrite (get_In _ _ _ Hnd Hin).
  - intros w Hin Hlen.
    assert (Hw : is_long w = true) by now apply Nat.ltb_lt.
    pose proof (Hcount w Hw) as Hc.
    assert (Hpos : (0 < count_occ string_dec (tokens text) w)%nat)
      by now apply count_occ_In.
    unfold lookup_count in Hc.
    destruct (JsMap.get w (wordCount text)) as [c|] eqn:G; [|lia].
    clear - G. induction (wordCount text) as [|[k v] m IH]; simpl in *; [discriminate|].
    destruct (String.eqb w k) eqn:E; [left; symmetry; now apply String.eqb_eq|].
    right; now apply IH.
Qed.

(** ** Binary64 arithmetic

    Facts about the rounding of the reference implementation of binary64,
    to which the primitive operations are tied by the axioms of the
    library. *)

Module Binary64.
Import SF.

Lemma shr_1_nonneg (mrs : shr_record) :
  (0 <= shr_m mrs)%Z -> (0 <= shr_m (shr_1 mrs))%Z.
Proof.
  destruct mrs as [m r s]. simpl.
  destruct m as [|[p|p|]|[p|p|]]; simpl; lia.
Qed.

Lemma iter_pos_invariant {A : Type} (f : A -> A) (P : A -> Prop) :
  (forall x, P x -> P (f x)) -> forall p x, P x -> P (SpecFloat.iter_pos f p x).
Proof.
  intros Hf. induction p as [p IH|p IH|]; intros x Hx; simpl; auto.
Qed.

Lemma shr_nonneg (mrs : shr_record) (e n : Z) :
  (0 <= shr_m mrs)%Z -> (0 <= shr_m (fst (shr mrs e n)))%Z.
Proof.
  intros H. unfold shr. destruct n; simpl; auto.
  apply (iter_pos_invariant shr_1 (fun r => 0 <= shr_m r)%Z); auto.
  apply shr_1_nonneg.
Qed.

Lemma shr_record_of_loc_m (m : Z) (l : location) :
  shr_m (shr_record_of_loc m l) = m.
Proof. destruct l as [|[]]; reflexivity. Qed.

Lemma round_nearest_even_ge (m : Z) (l : location) :
  (m <= round_nearest_even m l)%Z.
Proof. destruct l as [|[]]; simpl; try lia. destruct (Z.even m); lia. Qed.

Section Format.
Variables prec emax : Z.

Lemma shr_fexp_nonneg (m e : Z) (l : location) :
  (0 <= m)%Z -> (0 <= shr_m (fst (shr_fexp prec emax m e l)))%Z.
Proof.
  intros H. unfold shr_fexp. apply shr_nonneg. now rewrite shr_record_of_loc_m.
Qed.

Lemma binary_round_aux_signed (s : bool) (m e : Z) (l : location) :
  (0 <= m)%Z -> signed s (binary_round_aux prec emax s m e l).
Proof.
  intros H. unfold binary_round_aux.
  pose proof (shr_fexp_nonneg m e l H) as H1.
  destruct (shr_fexp prec emax m e l) as [mrs' e'] eqn:E1. simpl in H1.
  pose proof (round_nearest_even_ge (shr_m mrs') (loc_of_shr_record mrs')) as H2.
  set (m1 := round_nearest_even (shr_m mrs') (loc_of_shr_record mrs')) in *.
  assert (H3 : (0 <= m1)%Z) by lia.
  pose proof (shr_fexp_nonneg m1 e' loc_Exact H3) as H4.
  destruct (shr_fexp prec emax m1 e' loc_Exact) as [mrs'' e''] eqn:E2. simpl in H4.
  destruct (shr_m mrs'') as [|p|p]; simpl.
  - reflexivity.
  - destruct (e'' <=? emax - prec)%Z; reflexivity.
  - lia.
Qed.

Lemma binary_round_signed (s : bool) (m : positive) (e : Z) :
  signed s (binary_round prec emax s m e).
Proof.
  unfold binary_round.
  destruct (shl_align m e _) as [mz ez].
  apply binary_round_aux_signed. lia.
Qed.

End Format.

Lemma signed_nonneg (x : spec_float) : signed false x -> nonneg x.
Proof. destruct x; simpl; auto. Qed.

Lemma SFleb_zero (x : spec_float) :
  SFleb (S754_zero false) x = true <-> nonneg x.
Proof.
  destruct x as [s|[|]| |[|] m e]; simpl; unfold SFleb; simpl;
    intuition congruence.
Qed.

Lemma SFadd_nonneg (x y : spec_float) :
  nonneg x -> nonneg y -> nonneg (SFadd prec emax x y).
Proof.
  destruct x as [sx|sx| |sx mx ex]; destruct y as [sy|sy| |sy my ey];
    simpl; try tauto; intros Hx Hy; subst; simpl; auto.
  - destruct sx, sy; exact I.
  - apply signed_nonneg. cbn [cond_Zopp Z.add binary_normalize].
    apply binary_round_signed.
Qed.

Lemma div_eucl_nonneg (a b : Z) :
  (0 <= a)%Z -> (0 < b)%Z -> (0 <= fst (Z.div_eucl a b))%Z.
Proof.
  intros Ha Hb. change (fst (Z.div_eucl a b)) with (a / b)%Z.
  now apply Z.div_pos.
Qed.

Lemma SFdiv_nonneg (x y : spec_float) :
  nonneg x -> pos_finite y -> nonneg (SFdiv prec emax x y).
Proof.
  destruct y as [sy|sy| |[|] my ey]; simpl; try tauto. intros Hx _.
  destruct x as [sx|sx| |sx mx ex]; simpl in *; try tauto; subst; auto.
  unfold SFdiv_core_binary.
  set (m' := match _ with Z0 => _ | Zpos _ => _ | Zneg _ => _ end).
  assert (Hm' : (0 <= m')%Z).
  { subst m'. destruct (_ - _ - _)%Z; try lia. apply Z.shiftl_nonneg. lia. }
  pose proof (div_eucl_nonneg m' (Zpos my) Hm' ltac:(lia)) as Hq.
  destruct (Z.div_eucl m' (Z.pos my)) as [q r]. simpl in Hq.
  apply signed_nonneg. now apply binary_round_aux_signed.
Qed.

Lemma digits2_pos_log2 (m : positive) :
  Zpos (digits2_pos m) = (Z.log2 (Zpos m) + 1)%Z.
Proof.
  assert (H : forall p, digits2_pos p = Pos.size p)
    by (induction p; simpl; congruence).
  destruct m; simpl; rewrite ?H; lia.
Qed.

(** The mantissa lies between the powers of two given by its digits. *)
Lemma digits2_pos_bounds (m : positive) :
  (2 ^ (Zpos (digits2_pos m) - 1) <= Zpos m < 2 ^ Zpos (digits2_pos m))%Z.
Proof.
  rewrite digits2_pos_log2.
  replace (Z.log2 (Z.pos m) + 1 - 1)%Z with (Z.log2 (Zpos m)) by lia.
  apply Z.log2_spec. lia.
Qed.

Lemma iter_xO_value (m d : positive) :
  Zpos (Pos.iter xO m d) = (Zpos m * 2 ^ Zpos d)%Z.
Proof.
  induction d as [|d IH] using Pos.peano_ind.
  - simpl. lia.
  - rewrite Pos.iter_succ, Pos2Z.inj_succ, Z.pow_succ_r by lia.
    rewrite Pos2Z.inj_xO, IH. lia.
Qed.

Lemma iter_xO_digits (m d : positive) :
  digits2_pos (Pos.iter xO m d) = (digits2_pos m + d)%positive.
Proof.
  induction d as [|d IH] using Pos.peano_ind.
  - simpl. lia.
  - rewrite Pos.iter_succ. simpl. rewrite IH. lia.
Qed.

(** A mantissa of full width with an exponent in range is left as it is. *)
Lemma binary_round_aux_canonical (s : bool) (m : positive) (e : Z) :
  Zpos (digits2_pos m) = prec -> (emin <= e <= emax - prec)%Z ->
  binary_round_aux prec emax s (Zpos m) e loc_Exact = S754_finite s m e.
Proof.
  intros Hd He. unfold binary_round_aux, shr_fexp.
  assert (Hn : forall n, n = Zpos (digits2_pos m) ->
                 (fexp prec emax (n + e) - e)%Z = 0%Z)
    by (intros n ->; unfold fexp; lia).
  cbn [Zdigits2].
  match goal with
  | |- context [shr ?r e ?n] => replace n with 0%Z by (symmetry; now apply Hn)
  end.
  cbn [shr shr_record_of_loc loc_of_shr_record round_nearest_even shr_m Zdigits2].
  match goal with
  | |- context [shr ?r e ?n] => replace n with 0%Z by (symmetry; now apply Hn)
  end.
  cbn [shr shr_record_of_loc shr_m].
  match goal with
  | |- context [if ?b then _ else _] => destruct b eqn:E
  end; [reflexivity|].
  assert (E' : (e <=? emax - prec)%Z = false) by exact E.
  apply Z.leb_gt in E'. lia.
Qed.

Lemma binary_round_small (m : positive) :
  (Zpos m < 2 ^ prec)%Z ->
  exists m' e', binary_round prec emax false m 0 = S754_finite false m' e'.
Proof.
  intros Hm. unfold binary_round.
  pose proof (digits2_pos_bounds m) as [Hlo _].
  assert (Hd : (Zpos (digits2_pos m) <= prec)%Z).
  { destruct (Z_le_gt_dec (Zpos (digits2_pos m)) prec) as [|Hgt]; [assumption|].
    exfalso. assert (2 ^ prec <= 2 ^ (Zpos (digits2_pos m) - 1))%Z
      by (apply Z.pow_le_mono_r; unfold prec in *; lia). lia. }
  assert (Hf : fexp prec emax (Zpos (digits2_pos m) + 0) = (Zpos (digits2_pos m) - prec)%Z)
    by (unfold fexp, SpecFloat.emin, prec, emax in *; lia).
  rewrite Hf. unfold shl_align.
  destruct (Zpos (digits2_pos m) - prec - 0)%Z as [|d|d] eqn:Ed; try lia.
  - exists m, 0%Z. apply binary_round_aux_canonical; [lia|].
    unfold SpecFloat.emin, prec, emax; lia.
  - eexists _, _. apply binary_round_aux_canonical.
    + rewrite iter_xO_digits. lia.
    + unfold SpecFloat.emin, prec, emax in *. lia.
Qed.

Lemma pow2_xO (p : positive) : (2 ^ Zpos p~0 = 2 ^ Zpos p * 2 ^ Zpos p)%Z.
Proof.
  replace (Zpos p~0) with (Zpos p + Zpos p)%Z by lia.
  apply Z.pow_add_r; lia.
Qed.

Lemma pow2_xI (p : positive) : (2 ^ Zpos p~1 = 2 * (2 ^ Zpos p * 2 ^ Zpos p))%Z.
Proof.
  replace (Zpos p~1) with (Z.succ (Zpos p~0)) by lia.
  rewrite Z.pow_succ_r by lia. now rewrite pow2_xO.
Qed.

Lemma shr_1_half (mrs : shr_record) :
  (0 <= shr_m mrs)%Z -> shr_m (shr_1 mrs) = (shr_m mrs / 2)%Z.
Proof.
  destruct mrs as [m r s]. cbn [shr_m]. intros H.
  rewrite <- Z.div2_div.
  destruct m as [|[p|p|]|[p|p|]]; try reflexivity; lia.
Qed.

Lemma iter_shr_1_value (p : positive) (mrs : shr_record) :
  (0 <= shr_m mrs)%Z ->
  shr_m (SpecFloat.iter_pos shr_1 p mrs) = (shr_m mrs / 2 ^ Zpos p)%Z.
Proof.
  assert (Hnn : forall q r, (0 <= shr_m r)%Z -> (0 <= shr_m (SpecFloat.iter_pos shr_1 q r))%Z).
  { intros q r Hr.
    apply (iter_pos_invariant shr_1 (fun r => 0 <= shr_m r)%Z); auto.
    apply shr_1_nonneg. }
  revert mrs. induction p as [p IH|p IH|]; intros mrs H; cbn [SpecFloat.iter_pos].
  - rewrite IH, IH, shr_1_half by auto using shr_1_nonneg.
    rewrite !Z.div_div by lia.
    f_equal. now rewrite pow2_xI.
  - rewrite IH, IH by auto.
    rewrite !Z.div_div by lia.
    f_equal. now rewrite pow2_xO.
  - rewrite shr_1_half by auto. reflexivity.
Qed.

(** Shifting to the working precision keeps a positive mantissa positive,
    as long as the exponent is not below the least one. *)
Lemma shr_fexp_positive (m : positive) (e : Z) (l : location) :
  (emin <= e)%Z ->
  (0 < shr_m (fst (shr_fexp prec emax (Zpos m) e l)))%Z
  /\ (emin <= snd (shr_fexp prec emax (Zpos m) e l))%Z.
Proof.
  intros He. unfold shr_fexp. cbn [Zdigits2].
  pose proof (digits2_pos_bounds m) as [Hlo _].
  set (d := Zpos (digits2_pos m)) in *.
  assert (Hf : forall n, n = (fexp prec emax (d + e) - e)%Z ->
             (n <= 0 \/ n = d - prec)%Z)
    by (intros n ->; unfold fexp, SpecFloat.emin, prec, emax in *; lia).
  match goal with
  | |- context [shr ?r e ?n] => destruct (Hf n eq_refl) as [Hn|Hn]; revert Hn;
      generalize n
  end.
  - intros n Hn. unfold shr.
    destruct n as [|p|p]; try lia; simpl; rewrite shr_record_of_loc_m; lia.
  - intros n ->. unfold shr.
    destruct (d - prec)%Z as [|p|p] eqn:Ep; simpl;
      rewrite ?shr_record_of_loc_m; try lia.
    rewrite iter_shr_1_value by (rewrite shr_record_of_loc_m; lia).
    rewrite shr_record_of_loc_m. split; [|lia].
    apply Z.lt_le_trans with (2 ^ (prec - 1))%Z; [unfold prec; lia|].
    apply Z.div_le_lower_bound; [lia|].
    rewrite <- Z.pow_add_r by (unfold prec; lia).
    replace (Zpos p + (prec - 1))%Z with (d - 1)%Z by lia. exact Hlo.
Qed.

Lemma binary_round_aux_strictly (s : bool) (m : positive) (e : Z) (l : location) :
  (emin <= e)%Z -> strictly s (binary_round_aux prec emax s (Zpos m) e l).
Proof.
  intros He. unfold binary_round_aux.
  destruct (shr_fexp_positive m e l He) as [H1 H1e].
  destruct (shr_fexp prec emax (Zpos m) e l) as [mrs' e'] eqn:E1.
  simpl in H1, H1e.
  pose proof (round_nearest_even_ge (shr_m mrs') (loc_of_shr_record mrs')) as H2.
  destruct (round_nearest_even (shr_m mrs') (loc_of_shr_record mrs'))
    as [|m1|m1] eqn:E; try lia.
  destruct (shr_fexp_positive m1 e' loc_Exact H1e) as [H3 _].
  destruct (shr_fexp prec emax (Zpos m1) e' loc_Exact) as [mrs'' e''] eqn:E2.
  simpl in H3.
  destruct (shr_m mrs'') as [|p|p]; try lia.
  match goal with
  | |- context [if ?b then _ else _] => destruct b
  end; reflexivity.
Qed.

Lemma binary_round_strictly (s : bool) (m : positive) (e : Z) :
  (emin <= e)%Z -> strictly s (binary_round prec emax s m e).
Proof.
  intros He. unfold binary_round, shl_align.
  match goal with
  | |- context [match ?d with Z0 => _ | Zpos _ => _ | Zneg _ => _ end] =>
      destruct d eqn:Ed
  end; apply binary_round_aux_strictly; auto.
  unfold fexp, SpecFloat.emin, prec, emax in *. lia.
Qed.

Lemma valid_binary_canonical (s : bool) (m : positive) (e : Z) :
  valid_binary (S754_finite s m e) = true ->
  (emin <= e)%Z
  /\ (Zpos (digits2_pos m) <= prec)%Z
  /\ (emin < e -> Zpos (digits2_pos m) = prec)%Z.
Proof.
  unfold SpecFloat.valid_binary, bounded, canonical_mantissa.
  intros H. apply andb_prop in H. destruct H as [H _].
  apply Z.eqb_eq in H. revert H.
  unfold fexp, SpecFloat.emin, prec, emax. lia.
Qed.

Lemma shl_align_value (m : positive) (e ez : Z) :
  (ez <= e)%Z ->
  Zpos (fst (shl_align m e ez)) = (Zpos m * 2 ^ (e - ez))%Z.
Proof.
  intros H. unfold shl_align.
  match goal with
  | |- context [match ?z with Z0 => _ | Zpos _ => _ | Zneg _ => _ end] =>
      destruct z as [|d|d] eqn:Ed
  end; simpl fst; try lia.
  - replace (e - ez)%Z with 0%Z by lia. lia.
  - rewrite iter_xO_value. replace (e - ez)%Z with (Zpos d) by lia. reflexivity.
Qed.

(** Two valid positive floats compare as their mantissas do once they are
    brought to the smaller of the two exponents. *)
Lemma SFcompare_aligned (mx my : positive) (ex ey : Z) :
  valid_binary (S754_finite false mx ex) = true ->
  valid_binary (S754_finite false my ey) = true ->
  SFcompare (S754_finite false mx ex) (S754_finite false my ey) =
  Some (Zpos mx * 2 ^ (ex - Z.min ex ey) ?= Zpos my * 2 ^ (ey - Z.min ex ey))%Z.
Proof.
  intros Hx Hy.
  apply valid_binary_canonical in Hx. destruct Hx as (Hxe & Hxd & Hxf).
  apply valid_binary_canonical in Hy. destruct Hy as (Hye & Hyd & Hyf).
  pose proof (digits2_pos_bounds mx) as [Hxlo Hxhi].
  pose proof (digits2_pos_bounds my) as [Hylo Hyhi].
  assert (Hfull : forall m, Zpos (digits2_pos m) = prec ->
            (2 ^ (Zpos (digits2_pos m) - 1) <= Zpos m)%Z ->
            (2 ^ 52 <= Zpos m)%Z)
    by (intros m -> H; exact H).
  assert (Hsmall : forall m, (Zpos (digits2_pos m) <= prec)%Z ->
            (Zpos m < 2 ^ Zpos (digits2_pos m))%Z -> (Zpos m < 2 ^ 53)%Z).
  { intros m Hd Hm. eapply Z.lt_le_trans; [exact Hm|].
    apply Z.pow_le_mono_r; unfold prec in *; lia. }
  assert (Hpow : forall k, (0 < k)%Z -> (2 <= 2 ^ k)%Z).
  { intros k Hk. change 2%Z with (2 ^ 1)%Z at 1.
    apply Z.pow_le_mono_r; lia. }
  cbn [SFcompare].
  change (IntDef.Z.compare ex ey) with (ex ?= ey)%Z.
  destruct (Z.compare_spec ex ey) as [Heq|Hlt|Hgt].
  - subst ey. rewrite Z.min_id, Z.sub_diag. simpl (2 ^ 0)%Z.
    rewrite !Z.mul_1_r. reflexivity.
  - rewrite Z.min_l by lia. rewrite Z.sub_diag. simpl (2 ^ 0)%Z.
    rewrite Z.mul_1_r. f_equal. symmetry. apply Z.compare_lt_iff.
    specialize (Hpow (ey - ex)%Z ltac:(lia)).
    specialize (Hfull my (Hyf ltac:(lia)) Hylo).
    specialize (Hsmall mx Hxd Hxhi). nia.
  - rewrite Z.min_r by lia. rewrite Z.sub_diag. simpl (2 ^ 0)%Z.
    rewrite Z.mul_1_r. f_equal. symmetry. apply Z.compare_gt_iff.
    specialize (Hpow (ex - ey)%Z ltac:(lia)).
    specialize (Hfull mx (Hxf ltac:(lia)) Hxlo).
    specialize (Hsmall my Hyd Hyhi). nia.
Qed.

Lemma SFltb_zero_strictly (s : bool) (x : spec_float) :
  strictly s x -> SFltb (S754_zero false) x = negb s.
Proof. destruct x as [| | |]; simpl; try tauto; intros ->; destruct s; reflexivity. Qed.

(** The sign of a difference of positive values is the outcome of their
    comparison. *)
Lemma SFsub_sign (x y : spec_float) :
  valid_binary x = true -> valid_binary y = true ->
  positive_value x -> positive_value y ->
  SFltb (S754_zero false) (SFsub prec emax y x) = SFltb x y.
Proof.
  intros Vx Vy Px Py.
  destruct x as [|[|]| |[|] mx ex]; try contradiction;
  destruct y as [|[|]| |[|] my ey]; try contradiction; try reflexivity.
  unfold SFltb at 2. rewrite (SFcompare_aligned mx my ex ey Vx Vy).
  pose proof (valid_binary_canonical _ _ _ Vx) as (Hxe & _).
  pose proof (valid_binary_canonical _ _ _ Vy) as (Hye & _).
  cbn [SFsub cond_Zopp].
  change (IntDef.Z.min ey ex) with (Z.min ey ex).
  rewrite (Z.min_comm ey ex).
  set (ez := Z.min ex ey).
  rewrite (shl_align_value my ey ez), (shl_align_value mx ex ez) by (subst ez; lia).
  set (X := (Zpos mx * 2 ^ (ex - ez))%Z).
  set (Y := (Zpos my * 2 ^ (ey - ez))%Z).
  change (IntDef.Z.sub Y X) with (Y - X)%Z.
  assert (Hez : (emin <= ez)%Z) by (subst ez; lia).
  destruct (Z.compare_spec X Y) as [Heq|Hlt|Hgt].
  - replace (Y - X)%Z with 0%Z by lia. reflexivity.
  - destruct (Y - X)%Z as [|d|d] eqn:Ed; try lia.
    cbn [binary_normalize].
    now rewrite (SFltb_zero_strictly false) by now apply binary_round_strictly.
  - destruct (Y - X)%Z as [|d|d] eqn:Ed; try lia.
    cbn [binary_normalize].
    now rewrite (SFltb_zero_strictly true) by now apply binary_round_strictly.
Qed.

Lemma SFltb_SFleb (x y : spec_float) : SFltb x y = true -> SFleb x y = true.
Proof. unfold SFltb, SFleb. destruct (SFcompare x y) as [[| |]|]; congruence. Qed.

Lemma SFleb_total (x y : spec_float) :
  valid_binary x = true -> valid_binary y = true ->
  positive_value x -> positive_value y ->
  SFltb x y = false -> SFleb y x = true.
Proof.
  intros Vx Vy Px Py.
  destruct x as [|[|]| |[|] mx ex]; try contradiction;
  destruct y as [|[|]| |[|] my ey]; try contradiction;
    try reflexivity; try discriminate.
  unfold SFltb, SFleb.
  rewrite (SFcompare_aligned mx my ex ey Vx Vy), (SFcompare_aligned my mx ey ex Vy Vx).
  rewrite (Z.min_comm ey ex).
  rewrite (Z.compare_antisym (Zpos mx * _) (Zpos my * _)).
  destruct (_ ?= _)%Z; simpl; congruence.
Qed.

Lemma signed_plus (x : spec_float) : signed false x -> plus x.
Proof. destruct x; simpl; auto. Qed.

Lemma nonneg_not_neg (x : spec_float) : nonneg x -> not_neg x.
Proof. destruct x as [|[|]| |[|]]; simpl; auto; discriminate. Qed.

Lemma plus_not_neg (x : spec_float) : plus x -> not_neg x.
Proof. destruct x as [|[|]| |[|]]; simpl; auto; discriminate. Qed.

Lemma SFmul_not_neg (x y : spec_float) :
  not_neg x -> not_neg y -> not_neg (SFmul prec emax x y).
Proof.
  destruct x as [sx|[|]| |[|] mx ex]; destruct y as [sy|[|]| |[|] my ey];
    simpl; try tauto.
  intros _ _. apply plus_not_neg, signed_plus, binary_round_aux_signed. lia.
Qed.

Lemma SFmul_plus (x y : spec_float) :
  plus x -> plus y -> plus (SFmul prec emax x y).
Proof.
  destruct x as [sx|sx| |sx mx ex]; destruct y as [sy|sy| |sy my ey];
    simpl; try tauto; intros -> ->; try reflexivity.
  apply signed_plus, binary_round_aux_signed. lia.
Qed.

Lemma SFadd_plus (x y : spec_float) :
  plus x -> not_neg y -> plus (SFadd prec emax x y).
Proof.
  destruct x as [sx|sx| |sx mx ex]; simpl; try tauto; intros ->;
    destruct y as [[|]|[|]| |[|] my ey]; simpl; try tauto; intros _.
  apply signed_plus. cbn [cond_Zopp Z.add binary_normalize].
  apply binary_round_signed.
Qed.

Lemma SFdiv_plus (x y : spec_float) :
  plus x -> plus y -> plus (SFdiv prec emax x y).
Proof.
  destruct x as [sx|sx| |sx mx ex]; destruct y as [sy|sy| |sy my ey];
    simpl; try tauto; intros -> ->; try reflexivity.
  unfold SFdiv_core_binary.
  set (m' := match _ with Z0 => _ | Zpos _ => _ | Zneg _ => _ end).
  assert (Hm' : (0 <= m')%Z).
  { subst m'. destruct (_ - _ - _)%Z; try lia. apply Z.shiftl_nonneg. lia. }
  pose proof (div_eucl_nonneg m' (Zpos my) Hm' ltac:(lia)) as Hq.
  destruct (Z.div_eucl m' (Z.pos my)) as [q r]. simpl in Hq.
  apply signed_plus. now apply binary_round_aux_signed.
Qed.

Lemma SFsqrt_plus (x : spec_float) : plus x -> plus (SFsqrt prec emax x).
Proof.
  destruct x as [sx|sx| |sx mx ex]; simpl; try tauto; intros ->; try reflexivity.
  unfold SFsqrt_core_binary.
  set (m' := match _ with Z0 => _ | Zpos _ => _ | Zneg _ => _ end).
  pose proof (Z.sqrtrem_sqrt m') as Hs. pose proof (Z.sqrt_nonneg m') as Hn.
  destruct (Z.sqrtrem m') as [q r]. simpl in Hs. subst q.
  apply signed_plus. now apply binary_round_aux_signed.
Qed.

End Binary64.

Lemma nonneg_spec (x : float) : F64.nonneg x <-> SF.nonneg (Prim2SF x).
Proof.
  unfold F64.nonneg. rewrite FloatAxioms.leb_spec.
  change (Prim2SF 0) with (S754_zero false). apply Binary64.SFleb_zero.
Qed.

Lemma of_nat_nonneg (n : nat) : SF.nonneg (Prim2SF (F64.of_nat n)).
Proof.
  unfold F64.of_nat. rewrite of_uint63_spec.
  pose proof (Uint63.to_Z_bounded (of_Z (Z.of_nat n))) as [H _].
  destruct (to_Z (of_Z (Z.of_nat n))) as [|p|p]; simpl; auto; [|lia].
  apply Binary64.signed_nonneg, Binary64.binary_round_signed.
Qed.

Lemma of_nat_pos_finite (n : nat) :
  (0 < n)%nat -> (Z.of_nat n < 2 ^ 53)%Z -> SF.pos_finite (Prim2SF (F64.of_nat n)).
Proof.
  intros Hn Hlt. unfold F64.of_nat. rewrite of_uint63_spec, Uint63.of_Z_spec.
  rewrite Z.mod_small by (unfold wB; simpl; lia).
  destruct (Z.of_nat n) as [|p|p] eqn:E; try lia. simpl.
  destruct (Binary64.binary_round_small p Hlt) as (m' & e' & ->). exact I.
Qed.

Lemma positive_value_gt (c x : float) :
  SF.nonneg (Prim2SF c) -> PrimFloat.ltb c x = true -> SF.positive_value (Prim2SF x).
Proof.
  rewrite FloatAxioms.ltb_spec. unfold SFltb.
  destruct (Prim2SF c) as [sc|[|]| |[|] mc ec]; simpl; try discriminate; try tauto;
    destruct (Prim2SF x) as [sx|[|]| |[|] mx ex]; simpl; try discriminate; auto.
Qed.

Lemma sub_gt_zero (x y : float) :
  SF.positive_value (Prim2SF x) -> SF.positive_value (Prim2SF y) ->
  PrimFloat.ltb 0 (PrimFloat.sub y x) = PrimFloat.ltb x y.
Proof.
  intros Px Py. rewrite !FloatAxioms.ltb_spec, FloatAxioms.sub_spec.
  change (Prim2SF 0) with (S754_zero false).
  apply Binary64.SFsub_sign; auto using Prim2SF_valid.
Qed.

Lemma ltb_leb (x y : float) : PrimFloat.ltb x y = true -> PrimFloat.leb x y = true.
Proof.
  rewrite FloatAxioms.ltb_spec, FloatAxioms.leb_spec. apply Binary64.SFltb_SFleb.
Qed.

Lemma not_ltb_leb (x y : float) :
  SF.positive_value (Prim2SF x) -> SF.positive_value (Prim2SF y) ->
  PrimFloat.ltb x y = false -> PrimFloat.leb y x = true.
Proof.
  rewrite FloatAxioms.ltb_spec, FloatAxioms.leb_spec.
  apply Binary64.SFleb_total; apply Prim2SF_valid.
Qed.

Lemma add_nonneg (x y : float) :
  F64.nonneg x -> F64.nonneg y -> F64.nonneg (PrimFloat.add x y).
Proof.
  rewrite !nonneg_spec, FloatAxioms.add_spec. apply Binary64.SFadd_nonneg.
Qed.

Lemma weight_nonneg (count len : nat) :
  (0 < len)%nat -> (Z.of_nat len < 2 ^ 53)%Z ->
  F64.nonneg (PrimFloat.div (F64.of_nat count) (F64.of_nat len)).
Proof.
  intros Hpos Hlt. rewrite nonneg_spec, FloatAxioms.div_spec.
  apply Binary64.SFdiv_nonneg; [apply of_nat_nonneg|now apply of_nat_pos_finite].
Qed.

(** ** Ranking *)

Lemma above_threshold_positive (c : Candidate) :
  above_threshold c = true -> SF.positive_value (Prim2SF (score c)).
Proof.
  apply positive_value_gt. vm_compute. reflexivity.
Qed.

Lemma by_score_after_ltb (a b : Candidate) :
  above_threshold a = true -> above_threshold b = true ->
  by_score_after a b = PrimFloat.ltb (score a) (score b).
Proof.
  intros Ha Hb. unfold by_score_after.
  apply sub_gt_zero; now apply above_threshold_positive.
Qed.

(** C6: every returned section has a relevance score above 0.3, at most
    five sections are returned, and each section scores at least as much as
    the one that follows it. *)
Theorem findRelatedSections_threshold_top5_sorted (currentDocId : string)
    (currentPage : Z) (selectedText : option string) (st : Engine * Stored) :
  let result :=
    snd (findRelatedSections currentDocId currentPage selectedText st) in
  Forall (fun r => PrimFloat.ltb F64.lit_0_3 (relevanceScore r) = true) result
  /\ (List.length result <= 5)%nat
  /\ Sorted (fun a b =>
               PrimFloat.leb (relevanceScore b) (relevanceScore a) = true)
       result.
Proof.
  destruct st as [e ls]. cbv zeta. rewrite findRelatedSections_spec.
  destruct (JsMap.get currentDocId (documents (initialize ls e)));
    [|repeat split; simpl; auto; lia].
  cbv zeta. set (found := candidates _ _ _ _ _).
  assert (Hfound : Forall (fun c => above_threshold c = true
                                    /\ relevanceScore (section c) = score c) found).
  { apply Forall_forall. intros c Hc.
    now apply candidates_above_threshold in Hc. }
  split; [|split].
  - apply Forall_forall. intros r Hr. apply rank_In in Hr.
    destruct Hr as (c & Hc & <-).
    rewrite Forall_forall in Hfound. destruct (Hfound c Hc) as [Hab ->].
    exact Hab.
  - unfold rank. rewrite length_map. apply firstn_le_length.
  - unfold rank. apply Sorted_map, Sorted_firstn.
    eapply js_sort_Sorted; [| |exact Hfound].
    + intros a b [Ha Ea] [Hb Eb] Hafter. rewrite Ea, Eb.
      rewrite by_score_after_ltb in Hafter by assumption.
      now apply ltb_leb.
    + intros a b [Ha Ea] [Hb Eb] Hafter. rewrite Ea, Eb.
      rewrite by_score_after_ltb in Hafter by assumption.
      apply not_ltb_leb; auto using above_threshold_positive.
Qed.

(** ** The feature vector *)

Lemma add_at_length (i : nat) (w : float) (embedding : list float) :
  List.length (add_at i w embedding) = List.length embedding.
Proof.
  revert i. induction embedding as [|x l IH]; intros [|i]; simpl; auto.
Qed.

Lemma add_at_nonneg (i : nat) (w : float) (embedding : list float) :
  F64.nonneg w -> Forall F64.nonneg embedding ->
  Forall F64.nonneg (add_at i w embedding).
Proof.
  intros Hw. revert i. induction embedding as [|x l IH]; intros i H; simpl.
  - destruct i; constructor.
  - inversion H; subst. destruct i; constructor; auto using add_nonneg.
Qed.

Lemma fold_entries_length (len : nat) (entries : list (string * nat))
    (embedding : list float) :
  List.length (fold_left (fold_entry len) entries embedding)
  = List.length embedding.
Proof.
  revert embedding. induction entries as [|entry l IH]; intros embedding; simpl.
  - reflexivity.
  - rewrite IH. apply add_at_length.
Qed.

Lemma fold_entries_nonneg (len : nat) (entries : list (string * nat))
    (embedding : list float) :
  (0 < len)%nat -> (Z.of_nat len < 2 ^ 53)%Z ->
  Forall F64.nonneg embedding ->
  Forall F64.nonneg (fold_left (fold_entry len) entries embedding).
Proof.
  intros Hpos Hlt. revert embedding.
  induction entries as [|entry l IH]; intros embedding H; simpl; auto.
  apply IH. apply add_at_nonneg; auto using weight_nonneg.
Qed.

Lemma word_runs_length (s cur : string) :
  (List.length (JsString.word_runs cur s)
   <= String.length s + List.length (JsString.flush cur))%nat.
Proof.
  revert cur. induction s as [|c s IH]; intros cur; simpl; [lia|].
  destruct (JsString.is_word c).
  - specialize (IH (cur ++ String c EmptyString)%string).
    assert (List.length (JsString.flush (cur ++ String c EmptyString)%string) <= 1)%nat
      by (destruct (cur ++ String c EmptyString)%string; simpl; lia).
    lia.
  - rewrite length_app. specialize (IH EmptyString). simpl in IH. lia.
Qed.

Lemma toLowerCase_length (s : string) :
  String.length (JsString.toLowerCase s) = String.length s.
Proof. induction s; simpl; congruence. Qed.

Lemma tokens_length (text : string) :
  (List.length (tokens text) <= String.length text)%nat.
Proof.
  unfold tokens, JsString.match_words.
  pose proof (word_runs_length (JsString.toLowerCase text) EmptyString) as H.
  rewrite toLowerCase_length in H. simpl in H. lia.
Qed.

Lemma space_not_word (c : ascii) :
  JsString.is_space c = true -> JsString.is_word (JsString.lower_char c) = false.
Proof.
  destruct c as [[|] [|] [|] [|] [|] [|] [|] [|]]; vm_compute; congruence.
Qed.

Lemma word_runs_blank (s : string) :
  forallb JsString.is_space (list_ascii_of_string s) = true ->
  JsString.word_runs EmptyString (JsString.toLowerCase s) = [].
Proof.
  induction s as [|c s IH]; simpl; [reflexivity|].
  intros H. apply andb_prop in H. destruct H as [Hc Hs].
  rewrite (space_not_word c Hc). simpl. auto.
Qed.

(** C8: on a text of any content (shorter than 2^53 characters, as every
    JavaScript string is) the embedding has exactly 100 coordinates and each
    is a number not below zero; on an empty or white-space-only text the
    embedding is the zero vector and there is no keyword.  Both functions
    are total: no step of theirs can throw. *)
Theorem extract_shape (text : string) :
  (Z.of_nat (String.length text) < 2 ^ 53)%Z ->
  List.length (fst (extract text)) = 100%nat
  /\ Forall F64.nonneg (fst (extract text))
  /\ (forallb JsString.is_space (list_ascii_of_string text) = true ->
        extract text = (repeat 0%float 100, [])).
Proof.
  intros Hlen. unfold extract. cbn [fst].
  rewrite generateSimpleEmbedding_cap.
  assert (Hzero : Forall F64.nonneg (repeat 0%float 100))
    by (apply Forall_forall; intros x Hx; apply repeat_spec in Hx; now subst).
  split; [|split].
  - rewrite fold_entries_length. apply repeat_length.
  - pose proof (tokens_length text) as Hle.
    destruct (tokens text) as [|t l] eqn:E.
    + unfold wordCount. rewrite E. exact Hzero.
    + apply fold_entries_nonneg; simpl in *; auto; lia.
  - intros Hblank. rewrite <- generateSimpleEmbedding_cap.
    unfold generateSimpleEmbedding, extractKeywords,
      JsString.match_words, JsString.match_words4.
    now rewrite (word_runs_blank text Hblank).
Qed.

Lemma extract_shape_witness :
  let text := "Machine learning models; the MODELS require data!" in
  (Z.of_nat (String.length text) < 2 ^ 53)%Z
  /\ List.length (fst (extract text)) = 100%nat
  /\ Forall F64.nonneg (fst (extract text))
  /\ (forallb JsString.is_space (list_ascii_of_string text) = true ->
        extract text = (repeat 0%float 100, [])).
Proof.
  split; [vm_compute; reflexivity|].
  apply (extract_shape "Machine learning models; the MODELS require data!").
  vm_compute; reflexivity.
Defined.

(** ** The score in binary64 *)

Lemma of_nat_plus (n : nat) : SF.plus (Prim2SF (F64.of_nat n)).
Proof.
  unfold F64.of_nat. rewrite of_uint63_spec.
  pose proof (Uint63.to_Z_bounded (of_Z (Z.of_nat n))) as [H _].
  destruct (to_Z (of_Z (Z.of_nat n))) as [|p|p]; simpl; auto; [|lia].
  apply Binary64.signed_plus, Binary64.binary_round_signed.
Qed.

Lemma sim_loop_plus (e1 e2 : list float) (d n1 n2 : float) :
  Forall F64.nonneg e1 -> Forall F64.nonneg e2 ->
  SF.plus (Prim2SF d) -> SF.plus (Prim2SF n1) -> SF.plus (Prim2SF n2) ->
  let '(d', n1', n2') := sim_loop e1 e2 (d, n1, n2) in
  SF.plus (Prim2SF d') /\ SF.plus (Prim2SF n1') /\ SF.plus (Prim2SF n2').
Proof.
  revert e2 d n1 n2. induction e1 as [|a e1 IH]; intros e2 d n1 n2 H1 H2 Hd Hn1 Hn2.
  - simpl. auto.
  - cbn [sim_loop]. inversion H1 as [|? ? Ha H1']; subst.
    assert (Hb : SF.not_neg (Prim2SF (hd nan e2))).
    { destruct e2 as [|b e2]; simpl; [exact I|].
      inversion H2; subst. now apply Binary64.nonneg_not_neg, nonneg_spec. }
    assert (H2' : Forall F64.nonneg (tl e2))
      by (destruct e2; simpl; [constructor|now inversion H2]).
    apply nonneg_spec, Binary64.nonneg_not_neg in Ha.
    apply IH; auto; cbn [add mul float_number];
      rewrite FloatAxioms.add_spec, FloatAxioms.mul_spec;
      apply Binary64.SFadd_plus; auto; now apply Binary64.SFmul_not_neg.
Qed.

Lemma calculateSimilarity_plus (e1 e2 : list float) (k1 k2 : list string) :
  Forall F64.nonneg e1 -> Forall F64.nonneg e2 ->
  SF.plus (Prim2SF (calculateSimilarity e1 e2 k1 k2)).
Proof.
  intros H1 H2. unfold calculateSimilarity, cosine, keywordSim.
  pose proof (sim_loop_plus e1 e2 0%float 0%float 0%float H1 H2
                eq_refl eq_refl eq_refl) as H.
  change (0%float, 0%float, 0%float) with (@zero float _, @zero float _, @zero float _) in H.
  destruct (sim_loop e1 e2 (zero, zero, zero)) as [[d n1] n2].
  destruct H as (Hd & Hn1 & Hn2).
  cbn [add mul div sqrt of_nat lit_0_7 lit_0_3 zero truthy float_number].
  rewrite FloatAxioms.add_spec, !FloatAxioms.mul_spec.
  apply Binary64.SFadd_plus; [|apply Binary64.plus_not_neg]; apply Binary64.SFmul_plus;
    try (vm_compute; reflexivity).
  - destruct (F64.truthy n1 && F64.truthy n2); [|reflexivity].
    rewrite FloatAxioms.div_spec, FloatAxioms.mul_spec, !FloatAxioms.sqrt_spec.
    apply Binary64.SFdiv_plus; auto. apply Binary64.SFmul_plus; now apply Binary64.SFsqrt_plus.
  - rewrite FloatAxioms.div_spec. apply Binary64.SFdiv_plus; apply of_nat_plus.
Qed.

Lemma plus_not_below_zero (x : float) :
  SF.plus (Prim2SF x) -> PrimFloat.ltb x 0 = false.
Proof.
  rewrite FloatAxioms.ltb_spec. change (Prim2SF 0) with (S754_zero false).
  destruct (Prim2SF x) as [s|s| |s m e]; simpl; try reflexivity; intros ->; reflexivity.
Qed.

(** ** The score in exact arithmetic *)

Section ExactScore.
Local Open Scope R_scope.

Lemma cs_step (d n1 n2 a b : R) :
  cs_invariant (d, n1, n2) -> 0 <= a -> 0 <= b ->
  cs_invariant (d + a * b, n1 + a * a, n2 + b * b).
Proof.
  intros (Hd & H1 & H2 & Hcs) Ha Hb. unfold cs_invariant.
  assert (Hab : 0 <= a * b) by now apply Rmult_le_pos.
  repeat split; try nra.
  assert (Hx : 2 * (d * (a * b)) <= n1 * (b * b) + n2 * (a * a)).
  { assert (Hsq : (2 * (d * (a * b))) * (2 * (d * (a * b)))
                  <= (n1 * (b * b) + n2 * (a * a)) * (n1 * (b * b) + n2 * (a * a))).
    { assert (0 <= (n1 * (b * b) - n2 * (a * a)) * (n1 * (b * b) - n2 * (a * a)))
        by apply Rle_0_sqr.
      assert (4 * (d * d) * ((a * b) * (a * b)) <= 4 * (n1 * n2) * ((a * b) * (a * b))).
      { apply Rmult_le_compat_r; [nra|lra]. }
      nra. }
    apply Rsqr_incr_0_var; [exact Hsq|].
    assert (0 <= n1 * (b * b)) by (apply Rmult_le_pos; nra).
    assert (0 <= n2 * (a * a)) by (apply Rmult_le_pos; nra).
    lra. }
  nra.
Qed.

Lemma sim_loop_invariant (e1 e2 : list R) (acc : R * R * R) :
  List.length e1 = List.length e2 ->
  Forall (fun x => 0 <= x) e1 -> Forall (fun x => 0 <= x) e2 ->
  cs_invariant acc -> cs_invariant (sim_loop e1 e2 acc).
Proof.
  revert e2 acc. induction e1 as [|a e1 IH]; intros [|b e2] acc Hlen H1 H2 Hacc;
    simpl in *; try discriminate; auto.
  destruct acc as [[d n1] n2].
  inversion H1; inversion H2; subst.
  apply IH; auto. now apply cs_step.
Qed.

Lemma cosine_unit (e1 e2 : list R) :
  List.length e1 = List.length e2 ->
  Forall (fun x => 0 <= x) e1 -> Forall (fun x => 0 <= x) e2 ->
  0 <= cosine e1 e2 <= 1.
Proof.
  intros Hlen H1 H2. unfold cosine.
  pose proof (sim_loop_invariant e1 e2 (zero, zero, zero) Hlen H1 H2) as Hinv.
  destruct (sim_loop e1 e2 (zero, zero, zero)) as [[d n1] n2].
  assert (Hz : cs_invariant (zero, zero, zero)) by (simpl; lra).
  destruct (Hinv Hz) as (Hd & Hn1 & Hn2 & Hcs). simpl.
  unfold Exact.truthy.
  destruct (Req_dec_T n1 0) as [|Hne1]; simpl; [lra|].
  destruct (Req_dec_T n2 0) as [|Hne2]; simpl; [lra|].
  assert (Hp1 : 0 < R_sqrt.sqrt n1) by (apply sqrt_lt_R0; lra).
  assert (Hp2 : 0 < R_sqrt.sqrt n2) by (apply sqrt_lt_R0; lra).
  assert (Hp : 0 < R_sqrt.sqrt n1 * R_sqrt.sqrt n2) by now apply Rmult_lt_0_compat.
  split.
  - apply Rmult_le_pos; [exact Hd|]. left. now apply Rinv_0_lt_compat.
  - apply (Rmult_le_reg_r (R_sqrt.sqrt n1 * R_sqrt.sqrt n2)); [exact Hp|].
    unfold Rdiv. rewrite Rmult_assoc, Rinv_l by lra.
    rewrite Rmult_1_r, Rmult_1_l, <- sqrt_mult by lra.
    rewrite <- (sqrt_square d) by exact Hd.
    apply sqrt_le_1_alt. exact Hcs.
Qed.

Lemma overlap_le (k1 k2 : list string) :
  (overlap k1 k2 <= keyword_denominator k1 k2)%nat
  /\ (1 <= keyword_denominator k1 k2)%nat.
Proof.
  unfold overlap, keyword_denominator.
  pose proof (filter_length_le (fun k => existsb (String.eqb k) k2) k1). lia.
Qed.

Lemma keywordSim_unit (k1 k2 : list string) :
  0 <= keywordSim (F := R) k1 k2 <= 1.
Proof.
  unfold keywordSim. simpl. destruct (overlap_le k1 k2) as [Hle Hpos].
  apply le_INR in Hle. apply le_INR in Hpos. simpl in Hpos.
  pose proof (pos_INR (overlap k1 k2)).
  set (d := INR (keyword_denominator k1 k2)) in *.
  set (o := INR (overlap k1 k2)) in *.
  assert (0 < / d) by (apply Rinv_0_lt_compat; lra).
  split.
  - apply Rmult_le_pos; lra.
  - apply (Rmult_le_reg_r d); [lra|].
    unfold Rdiv. rewrite Rmult_assoc, Rinv_l by lra. lra.
Qed.

Lemma calculateSimilarity_unit (e1 e2 : list R) (k1 k2 : list string) :
  List.length e1 = List.length e2 ->
  Forall (fun x => 0 <= x) e1 -> Forall (fun x => 0 <= x) e2 ->
  0 <= calculateSimilarity e1 e2 k1 k2 <= 1.
Proof.
  intros Hlen H1 H2. unfold calculateSimilarity.
  pose proof (cosine_unit e1 e2 Hlen H1 H2) as Hc.
  pose proof (keywordSim_unit k1 k2) as Hk.
  set (c := cosine e1 e2) in *. set (k := keywordSim k1 k2) in *.
  cbn [add mul lit_0_7 lit_0_3 real_number]. lra.
Qed.

End ExactScore.

(** ** The range of the score *)

Lemma cosine_guard {F : Type} `{JsNumber F} (e1 e2 : list F) (d n1 n2 : F) :
  sim_loop e1 e2 (zero, zero, zero) = (d, n1, n2) ->
  truthy n1 = false \/ truthy n2 = false -> cosine e1 e2 = zero.
Proof.
  intros E Hz. unfold cosine. rewrite E.
  destruct Hz as [-> | ->]; [reflexivity|].
  now rewrite andb_false_r.
Qed.

(** C9, as stated, fails on the numbers the engine computes with: the two
    texts below have vectors of the same length with coordinates that are
    all at least 0, and their combined score is above 1; with coordinates
    whose squares overflow the score is NaN. *)
Lemma calculateSimilarity_above_one :
  let e1 := generateSimpleEmbedding Examples.text_short in
  let e2 := generateSimpleEmbedding Examples.text_long in
  let k1 := extractKeywords Examples.text_short in
  let k2 := extractKeywords Examples.text_long in
  List.length e1 = List.length e2
  /\ forallb (PrimFloat.leb 0) e1 = true
  /\ forallb (PrimFloat.leb 0) e2 = true
  /\ PrimFloat.ltb 1 (calculateSimilarity e1 e2 k1 k2) = true
  /\ F64.is_nan (calculateSimilarity [0x1p600%float] [0x1p600%float] k1 k2)
     = true.
Proof. repeat split; vm_compute; reflexivity. Qed.

(** C9, amended: for vectors of equal length with coordinates that are all
    at least 0 and any two keyword lists, the combined score lies in [0, 1]
    when it is evaluated in exact real arithmetic; evaluated in binary64, as
    the engine does, it is never below 0 but is not bounded by 1.  The two
    divisions are guarded: the cosine component is 0 when either norm is
    zero, and the keyword denominator is at least 1 and at least the
    overlap. *)
Theorem calculateSimilarity_range (r1 r2 : list R) (f1 f2 : list float)
    (k1 k2 : list string) :
  List.length r1 = List.length r2 ->
  Forall (fun x => 0 <= x)%R r1 -> Forall (fun x => 0 <= x)%R r2 ->
  List.length f1 = List.length f2 ->
  Forall F64.nonneg f1 -> Forall F64.nonneg f2 ->
  (0 <= calculateSimilarity r1 r2 k1 k2 <= 1)%R
  /\ PrimFloat.ltb (calculateSimilarity f1 f2 k1 k2) 0 = false
  /\ (forall d n1 n2, sim_loop f1 f2 (0, 0, 0)%float = (d, n1, n2) ->
        PrimFloat.eqb n1 0 = true \/ PrimFloat.eqb n2 0 = true ->
        cosine f1 f2 = 0%float)
  /\ (forall d n1 n2, sim_loop r1 r2 (0, 0, 0)%R = (d, n1, n2) ->
        n1 = 0%R \/ n2 = 0%R -> cosine r1 r2 = 0%R)
  /\ (1 <= keyword_denominator k1 k2)%nat
  /\ (overlap k1 k2 <= keyword_denominator k1 k2)%nat.
Proof.
  intros Hr Hr1 Hr2 Hf Hf1 Hf2.
  split; [now apply calculateSimilarity_unit|].
  split; [now apply plus_not_below_zero, calculateSimilarity_plus|].
  split; [|split].
  - intros d n1 n2 E Hz. apply (cosine_guard f1 f2 d n1 n2 E).
    cbn [truthy float_number]. unfold F64.truthy.
    destruct Hz as [-> | ->]; auto.
  - intros d n1 n2 E Hz. apply (cosine_guard r1 r2 d n1 n2 E).
    cbn [truthy real_number]. unfold Exact.truthy.
    destruct Hz as [-> | ->]; destruct (Req_dec_T 0 0); auto; congruence.
  - destruct (overlap_le k1 k2). auto.
Qed.

Lemma calculateSimilarity_range_witness :
  let r1 := [1; 0]%R in
  let r2 := [2; 3]%R in
  let f1 := [1; 0]%float in
  let f2 := [2; 3]%float in
  let k1 := ["data"] in
  let k2 := ["data"; "page"] in
  (0 <= calculateSimilarity r1 r2 k1 k2 <= 1)%R
  /\ PrimFloat.ltb (calculateSimilarity f1 f2 k1 k2) 0 = false
  /\ (forall d n1 n2, sim_loop f1 f2 (0, 0, 0)%float = (d, n1, n2) ->
        PrimFloat.eqb n1 0 = true \/ PrimFloat.eqb n2 0 = true ->
        cosine f1 f2 = 0%float)
  /\ (forall d n1 n2, sim_loop r1 r2 (0, 0, 0)%R = (d, n1, n2) ->
        n1 = 0%R \/ n2 = 0%R -> cosine r1 r2 = 0%R)
  /\ (1 <= keyword_denominator k1 k2)%nat
  /\ (overlap k1 k2 <= keyword_denominator k1 k2)%nat.
Proof.
  apply (calculateSimilarity_range [1; 0]%R [2; 3]%R [1; 0]%float [2; 3]%float
           ["data"] ["data"; "page"]).
  - reflexivity.
  - repeat constructor; lra.
  - repeat constructor; lra.
  - reflexivity.
  - repeat constructor.
  - repeat constructor.
Defined.

(** * Further properties *)

(** ** The hash *)

Section HashFacts.
Local Open Scope Z_scope.

Lemma to_int32_range (z : Z) : -2147483648 <= to_int32 z < 2147483648.
Proof. unfold to_int32. pose proof (Z.mod_pos_bound (z + 2147483648) 4294967296). lia. Qed.

Lemma to_int32_add_mul (z k : Z) : to_int32 (z + 4294967296 * k) = to_int32 z.
Proof.
  unfold to_int32.
  replace (z + 4294967296 * k + 2147483648) with (z + 2147483648 + k * 4294967296) by lia.
  now rewrite Z_mod_plus_full.
Qed.

Lemma to_int32_wrap (z : Z) : exists k, to_int32 z = z + 4294967296 * k.
Proof.
  unfold to_int32. exists (- ((z + 2147483648) / 4294967296)).
  pose proof (Z.div_mod (z + 2147483648) 4294967296). lia.
Qed.

Lemma to_int32_idem (z : Z) : to_int32 (to_int32 z) = to_int32 z.
Proof.
  destruct (to_int32_wrap z) as [k E].
  transitivity (to_int32 (z + 4294967296 * k)); [now rewrite E|].
  apply to_int32_add_mul.
Qed.

Lemma hash_step_poly (hash : Z) (c : ascii) :
  hash_step (to_int32 hash) c = to_int32 (31 * hash + JsString.charCode c).
Proof.
  unfold hash_step. rewrite to_int32_idem, Z.shiftl_mul_pow2 by lia.
  destruct (to_int32_wrap hash) as [k ->].
  destruct (to_int32_wrap ((hash + 4294967296 * k) * 2 ^ 5)) as [k' ->].
  replace ((hash + 4294967296 * k) * 2 ^ 5 + 4294967296 * k'
           - (hash + 4294967296 * k) + JsString.charCode c)
    with (31 * hash + JsString.charCode c + 4294967296 * (31 * k + k')) by lia.
  apply to_int32_add_mul.
Qed.

Lemma hash_loop_poly (s : string) (hash : Z) :
  hash_loop (to_int32 hash) s = to_int32 (poly31 hash s).
Proof.
  revert hash. induction s as [|c s IH]; intros hash; simpl; [reflexivity|].
  now rewrite hash_step_poly, IH.
Qed.

(** X1: the shift-and-subtract loop of [simpleHash] computes the polynomial
    hash (times 31, plus the character code) wrapped to 32 signed bits, and
    the result is its absolute value. *)
Theorem simpleHash_polynomial (str : string) :
  simpleHash str = Z.abs (to_int32 (poly31 0 str)).
Proof.
  unfold simpleHash. change (hash_loop 0 str) with (hash_loop (to_int32 0) str).
  now rewrite hash_loop_poly.
Qed.

(** X2: the hash lies between 0 and 2^31 (2^31 itself when the wrapped value
    is the least one) and the bucket is a valid index of the 100-slot array. *)
Theorem bucket_in_range (word : string) :
  0 <= simpleHash word <= 2147483648 /\ (bucket word < 100)%nat.
Proof.
  unfold bucket, simpleHash.
  assert (H1 : -2147483648 <= hash_loop 0 word < 2147483648).
  { change (hash_loop 0 word) with (hash_loop (to_int32 0) word).
    rewrite hash_loop_poly. apply to_int32_range. }
  split; [lia|].
  pose proof (Z.rem_bound_pos (Z.abs (hash_loop 0 word)) 100). lia.
Qed.

End HashFacts.

(** ** Tokens and keywords *)

Lemma string_forall_app (p : ascii -> bool) (s t : string) :
  string_forall p (s ++ t)%string = string_forall p s && string_forall p t.
Proof. induction s as [|c s IH]; simpl; [reflexivity|]. now rewrite IH, andb_assoc. Qed.

Lemma lower_char_not_upper (c : ascii) :
  JsString.is_upper (JsString.lower_char c) = false.
Proof.
  destruct c as [[|] [|] [|] [|] [|] [|] [|] [|]]; vm_compute; reflexivity.
Qed.

Lemma toLowerCase_no_upper (s : string) :
  string_forall (fun c => negb (JsString.is_upper c)) (JsString.toLowerCase s) = true.
Proof.
  induction s as [|c s IH]; simpl; [reflexivity|].
  now rewrite lower_char_not_upper, IH.
Qed.

Lemma word_runs_shape (s cur : string) :
  string_forall (fun c => negb (JsString.is_upper c)) s = true ->
  string_forall is_token_char cur = true ->
  Forall (fun w => w <> EmptyString /\ string_forall is_token_char w = true)
    (JsString.word_runs cur s).
Proof.
  revert cur. induction s as [|c s IH]; intros cur Hs Hcur; simpl.
  - destruct cur; simpl; repeat constructor; [discriminate|exact Hcur].
  - simpl in Hs. apply andb_prop in Hs. destruct Hs as [Hc Hs].
    destruct (JsString.is_word c) eqn:Ew.
    + apply IH; [exact Hs|]. rewrite string_forall_app, Hcur. simpl.
      unfold is_token_char. now rewrite Ew, Hc.
    + apply Forall_app. split; [|now apply IH].
      destruct cur; simpl; repeat constructor; [discriminate|exact Hcur].
Qed.


(** X3: every token is a non-empty run of word characters none of which is
    an upper-case letter. *)
Theorem tokens_shape (text : string) :
  Forall (fun w => w <> EmptyString /\ string_forall is_token_char w = true)
    (tokens text).
Proof.
  unfold tokens, JsString.match_words.
  apply word_runs_shape; [apply toLowerCase_no_upper|reflexivity].
Qed.

Section SortPerm.
Context {A : Type}.
Variable after : A -> A -> bool.

Lemma js_insert_Permutation (x : A) (l : list A) :
  Permutation (js_insert after x l) (x :: l).
Proof.
  induction l as [|y l IH]; simpl; [reflexivity|].
  destruct (after x y); [|reflexivity].
  rewrite IH. apply perm_swap.
Qed.

Lemma js_sort_Permutation (l : list A) : Permutation (js_sort after l) l.
Proof.
  induction l as [|x l IH]; simpl; [reflexivity|].
  rewrite js_insert_Permutation. now constructor.
Qed.

End SortPerm.

Lemma firstn_NoDup {A : Type} (n : nat) (l : list A) :
  NoDup l -> NoDup (firstn n l).
Proof.
  intros H. rewrite <- (firstn_skipn n l) in H. now apply NoDup_app_remove_r in H.
Qed.

(** In a list sorted for a transitive relation every element of a prefix is
    related to every element of the rest. *)
Lemma firstn_dominates {A : Type} (R : A -> A -> Prop) (n : nat) (l : list A)
    (x y : A) :
  StronglySorted R l -> In x (firstn n l) -> In y (skipn n l) -> R x y.
Proof.
  revert l. induction n as [|n IH]; intros l Hs Hx Hy; [destruct Hx|].
  destruct l as [|a l]; [destruct Hx|]. simpl in Hx, Hy.
  inversion Hs as [|? ? Hs' Ha]; subst.
  destruct Hx as [<-|Hx]; [|now apply (IH l)].
  rewrite Forall_forall in Ha. apply Ha.
  rewrite <- (firstn_skipn n l). apply in_or_app. now right.
Qed.

Lemma StronglySorted_firstn {A : Type} (R : A -> A -> Prop) (n : nat)
    (l : list A) :
  StronglySorted R l -> StronglySorted R (firstn n l).
Proof.
  revert l. induction n as [|n IH]; intros l Hs; simpl; [constructor|].
  destruct l as [|a l]; [constructor|].
  inversion Hs; subst. constructor; [now apply IH|now apply firstn_Forall].
Qed.

Lemma count_keyword_counts (seen : list string) (m : list (string * nat))
    (word : string) :
  keyword_counts_of seen m ->
  keyword_counts_of (seen ++ [word]) (count_keyword m word).
Proof.
  intros (Hnd & Hin & Hcount). unfold count_keyword.
  destruct (isStopWord word) eqn:E; simpl.
  - split; [assumption|]. split.
    + intros w c H. destruct (Hin w c H). split; auto. apply in_or_app; auto.
    + intros w Hw. rewrite count_occ_app. simpl.
      destruct (string_dec word w) as [->|Hne]; [congruence|].
      rewrite Hcount by assumption. lia.
  - split; [now apply set_NoDup|]. split.
    + intros w c H. apply set_In in H. destruct H as [[= -> ->]|H].
      * split; [assumption|]. apply in_or_app. right. now left.
      * destruct (Hin w c H). split; auto. apply in_or_app; auto.
    + intros w Hw. rewrite count_occ_app. simpl. unfold lookup_count at 1.
      destruct (string_dec word w) as [->|Hne].
      * rewrite get_set_same. rewrite Hcount by assumption. lia.
      * rewrite get_set_other by congruence.
        fold (lookup_count w m). rewrite Hcount by assumption. lia.
Qed.

Lemma fold_count_keyword_counts (l seen : list string) (m : list (string * nat)) :
  keyword_counts_of seen m ->
  keyword_counts_of (seen ++ l) (fold_left count_keyword l m).
Proof.
  revert seen m. induction l as [|word l IH]; intros seen m Hm; simpl.
  - now rewrite app_nil_r.
  - replace (seen ++ word :: l) with ((seen ++ [word]) ++ l)
      by (now rewrite <- app_assoc).
    apply IH. now apply count_keyword_counts.
Qed.

Lemma frequency_counts (text : string) :
  keyword_counts_of (words4 text) (frequency text).
Proof.
  apply (fold_count_keyword_counts (words4 text) [] []).
  split; [constructor|]. split; [intros w c []|reflexivity].
Qed.

Lemma frequency_entry (text : string) (w : string) (c : nat) :
  In (w, c) (frequency text) -> c = count_occ string_dec (words4 text) w.
Proof.
  destruct (frequency_counts text) as (Hnd & Hin & Hcount). intros H.
  destruct (Hin w c H) as [Hs _]. rewrite <- (Hcount w Hs).
  unfold lookup_count. now rewrite (get_In _ _ _ Hnd H).
Qed.

Lemma frequency_complete (text : string) (w : string) :
  In w (words4 text) -> isStopWord w = false -> In w (map fst (frequency text)).
Proof.
  destruct (frequency_counts text) as (Hnd & Hin & Hcount). intros Hw Hs.
  pose proof (Hcount w Hs) as Hc.
  assert (Hpos : (0 < count_occ string_dec (words4 text) w)%nat)
    by now apply count_occ_In.
  unfold lookup_count in Hc.
  destruct (JsMap.get w (frequency text)) as [c|] eqn:G; [|lia].
  clear - G. induction (frequency text) as [|[k v] m IH]; simpl in *; [discriminate|].
  destruct (String.eqb w k) eqn:E; [left; symmetry; now apply String.eqb_eq|].
  right; now apply IH.
Qed.

Lemma words4_shape (text : string) :
  Forall (fun w => (4 <= String.length w)%nat
                   /\ string_forall is_token_char w = true
                   /\ In w (tokens text))
    (words4 text).
Proof.
  apply Forall_forall. intros w Hw. unfold words4, JsString.match_words4 in Hw.
  apply filter_In in Hw. destruct Hw as [Hin Hlen].
  apply Nat.leb_le in Hlen. split; [exact Hlen|].
  assert (Hs : Forall (fun w => w <> EmptyString
                                /\ string_forall is_token_char w = true)
                 (tokens text))
    by (apply word_runs_shape; [apply toLowerCase_no_upper|reflexivity]).
  rewrite Forall_forall in Hs.
  split; [now apply Hs|exact Hin].
Qed.

Lemma extractKeywords_unfold (text : string) :
  extractKeywords text =
  map fst (firstn 10 (js_sort by_count_after (frequency text))).
Proof. reflexivity. Qed.

(** X5: there are at most ten keywords, all different, none a stop word,
    each a token of the text with at least four characters. *)
Theorem extractKeywords_shape (text : string) :
  (List.length (extractKeywords text) <= 10)%nat
  /\ NoDup (extractKeywords text)
  /\ Forall (fun k => isStopWord k = false
                      /\ (4 <= String.length k)%nat
                      /\ string_forall is_token_char k = true
                      /\ In k (tokens text))
       (extractKeywords text).
Proof.
  rewrite extractKeywords_unfold.
  destruct (frequency_counts text) as (Hnd & Hin & _).
  split; [rewrite length_map; apply firstn_le_length|]. split.
  - rewrite <- firstn_map. apply firstn_NoDup.
    eapply Permutation_NoDup; [|exact Hnd].
    symmetry. apply Permutation_map, js_sort_Permutation.
  - apply Forall_forall. intros k Hk. apply in_map_iff in Hk.
    destruct Hk as ([w c] & <- & Hwc). simpl.
    apply firstn_incl, js_sort_In in Hwc.
    destruct (Hin w c Hwc) as [Hs Hw]. split; [exact Hs|].
    pose proof (words4_shape text) as H4. rewrite Forall_forall in H4.
    now apply H4.
Qed.

Lemma by_count_sorted (l : list (string * nat)) :
  StronglySorted (fun a b => (snd b <= snd a)%nat) (js_sort by_count_after l).
Proof.
  apply Sorted_StronglySorted; [intros a b c; lia|].
  apply (js_sort_Sorted by_count_after _ (fun _ => True)).
  - intros a b _ _ H. unfold by_count_after in H. apply Z.ltb_lt in H. lia.
  - intros a b _ _ H. unfold by_count_after in H. apply Z.ltb_ge in H. lia.
  - apply Forall_forall. auto.
Qed.

(** X6: the keywords come in non-increasing order of their number of
    occurrences among the tokens of four characters and more, and a counted
    token that is not a keyword occurs no more often than any keyword. *)
Theorem extractKeywords_most_frequent (text : string) :
  let occurrences := count_occ string_dec (words4 text) in
  StronglySorted (fun k1 k2 => (occurrences k2 <= occurrences k1)%nat)
    (extractKeywords text)
  /\ (forall w k, In w (words4 text) -> isStopWord w = false ->
        ~ In w (extractKeywords text) -> In k (extractKeywords text) ->
        (occurrences w <= occurrences k)%nat).
Proof.
  cbv zeta. rewrite extractKeywords_unfold.
  set (sorted := js_sort by_count_after (frequency text)).
  assert (Hentry : forall a, In a sorted ->
            snd a = count_occ string_dec (words4 text) (fst a)).
  { intros [w c] Ha. apply js_sort_In in Ha. now apply frequency_entry. }
  pose proof (by_count_sorted (frequency text)) as Hs. fold sorted in Hs.
  split.
  - assert (Hpre : StronglySorted (fun a b => (snd b <= snd a)%nat) (firstn 10 sorted))
      by now apply StronglySorted_firstn.
    assert (Hent : Forall (fun a => snd a = count_occ string_dec (words4 text) (fst a))
                     (firstn 10 sorted)).
    { apply firstn_Forall, Forall_forall. exact Hentry. }
    induction Hpre as [|a l Hl IH Ha]; simpl; constructor.
    + inversion Hent; subst. now apply IH.
    + inversion Hent as [|? ? Ea El]; subst.
      rewrite Forall_forall in *. intros k Hk. apply in_map_iff in Hk.
      destruct Hk as (b & <- & Hb). rewrite <- Ea, <- (El b Hb). now apply Ha.
  - intros w k Hw Hstop Hnot Hk.
    apply in_map_iff in Hk. destruct Hk as (b & <- & Hb).
    pose proof (frequency_complete text w Hw Hstop) as Hin.
    apply in_map_iff in Hin. destruct Hin as (a & <- & Ha).
    apply (js_sort_In by_count_after) in Ha. fold sorted in Ha.
    rewrite <- (firstn_skipn 10 sorted) in Ha. apply in_app_or in Ha.
    destruct Ha as [Ha|Ha].
    + exfalso. apply Hnot. now apply in_map.
    + rewrite <- (Hentry a), <- (Hentry b).
      * apply (firstn_dominates _ 10 sorted b a Hs Hb Ha).
      * eapply firstn_incl; eauto.
      * rewrite <- (firstn_skipn 10 sorted). apply in_or_app. now right.
Qed.

(** ** Map updates *)

Lemma set_length {V : Type} (k : string) (v : V) (m : list (string * V)) :
  List.length (JsMap.set k v m) =
  match JsMap.get k m with
  | Some _ => List.length m
  | None => S (List.length m)
  end.
Proof.
  induction m as [|[k' v'] m IH]; simpl; [reflexivity|].
  destruct (String.eqb k k'); simpl; [reflexivity|].
  rewrite IH. destruct (JsMap.get k m); reflexivity.
Qed.

Lemma set_keys_present {V : Type} (k : string) (v v0 : V) (m : list (string * V)) :
  JsMap.get k m = Some v0 -> map fst (JsMap.set k v m) = map fst m.
Proof.
  induction m as [|[k' v'] m IH]; simpl; [discriminate|].
  destruct (String.eqb k k') eqn:E; simpl.
  - apply String.eqb_eq in E. now subst.
  - intros H. now rewrite IH.
Qed.

Lemma set_keys_absent {V : Type} (k : string) (v : V) (m : list (string * V)) :
  JsMap.get k m = None -> map fst (JsMap.set k v m) = map fst m ++ [k].
Proof.
  induction m as [|[k' v'] m IH]; simpl; [reflexivity|].
  destruct (String.eqb k k') eqn:E; simpl; [discriminate|].
  intros H. now rewrite IH.
Qed.

(** ** Insertion order *)

Lemma get_existsb {V : Type} (k : string) (m : list (string * V)) :
  existsb (String.eqb k) (map fst m) =
  match JsMap.get k m with Some _ => true | None => false end.
Proof.
  induction m as [|[k' v] m IH]; simpl; [reflexivity|].
  destruct (String.eqb k k'); simpl; [reflexivity|exact IH].
Qed.

Lemma set_keys_list {V : Type} (k : string) (v : V) (m : list (string * V)) :
  map fst (JsMap.set k v m) =
  if existsb (String.eqb k) (map fst m) then map fst m else map fst m ++ [k].
Proof.
  rewrite get_existsb. destruct (JsMap.get k m) eqn:G.
  - eapply set_keys_present; eauto.
  - now apply set_keys_absent.
Qed.

Lemma fold_count_word_keys (l : list string) (m : list (string * nat)) :
  map fst (fold_left count_word l m) =
  map fst m ++ first_occurrences (map fst m) (filter is_long l).
Proof.
  revert m. induction l as [|w l IH]; intros m; simpl.
  - now rewrite app_nil_r.
  - rewrite IH. unfold count_word. fold (is_long w).
    destruct (is_long w); [|reflexivity]. simpl.
    rewrite set_keys_list.
    destruct (existsb (String.eqb w) (map fst m)); [reflexivity|].
    now rewrite <- app_assoc.
Qed.

Lemma fold_count_keyword_keys (l : list string) (m : list (string * nat)) :
  map fst (fold_left count_keyword l m) =
  map fst m ++
  first_occurrences (map fst m) (filter (fun w => negb (isStopWord w)) l).
Proof.
  revert m. induction l as [|w l IH]; intros m; simpl.
  - now rewrite app_nil_r.
  - rewrite IH. unfold count_keyword.
    destruct (negb (isStopWord w)); [|reflexivity]. simpl.
    rewrite set_keys_list.
    destruct (existsb (String.eqb w) (map fst m)); [reflexivity|].
    now rewrite <- app_assoc.
Qed.

(** X4: the keys of the two counting maps are the counted tokens, each once,
    in the order of their first occurrence in the text. *)
Theorem maps_keep_first_occurrences (text : string) :
  map fst (wordCount text) = distinct (filter is_long (tokens text))
  /\ map fst (frequency text) = distinct (keyword_tokens text).
Proof.
  split; [apply (fold_count_word_keys (tokens text) [])|].
  apply (fold_count_keyword_keys (words4 text) []).
Qed.

Lemma js_sort_ordered {A : Type} (after : A -> A -> bool) (l : list A) :
  (forall a b, In a l -> In b l -> after a b = false) -> js_sort after l = l.
Proof.
  induction l as [|a l IH]; intros H; simpl; [reflexivity|].
  rewrite IH by (intros x y Hx Hy; apply H; now right).
  destruct l as [|b l]; [reflexivity|]. simpl.
  now rewrite (H a b) by (simpl; auto).
Qed.

(** X7: when all counted tokens occur equally often the sort moves nothing:
    the keywords are the first ten distinct counted tokens in reading order. *)
Theorem extractKeywords_of_equal_counts (text : string) :
  (forall w1 w2, In w1 (keyword_tokens text) -> In w2 (keyword_tokens text) ->
     count_occ string_dec (words4 text) w1 = count_occ string_dec (words4 text) w2) ->
  extractKeywords text = firstn 10 (distinct (keyword_tokens text)).
Proof.
  intros Heq. rewrite extractKeywords_unfold.
  assert (Hin : forall a, In a (frequency text) -> In (fst a) (keyword_tokens text)).
  { intros [w c] Ha. destruct (frequency_counts text) as (_ & Hin & _).
    destruct (Hin w c Ha) as [Hs Hw]. apply filter_In. simpl. now rewrite Hs. }
  rewrite js_sort_ordered.
  - rewrite <- firstn_map. f_equal.
    apply (fold_count_keyword_keys (words4 text) []).
  - intros [w1 c1] [w2 c2] H1 H2. unfold by_count_after. simpl.
    rewrite (frequency_entry text w1 c1 H1), (frequency_entry text w2 c2 H2).
    rewrite (Heq w1 w2 (Hin _ H1) (Hin _ H2)). apply Z.ltb_ge. lia.
Qed.


Lemma extractKeywords_of_equal_counts_witness :
  extractKeywords "delta alpha delta alpha"
  = firstn 10 (distinct (keyword_tokens "delta alpha delta alpha")).
Proof.
  apply (extractKeywords_of_equal_counts "delta alpha delta alpha").
  intros w1 w2 H1 H2. vm_compute in H1, H2.
  destruct H1 as [<-|[<-|[<-|[<-|[]]]]]; destruct H2 as [<-|[<-|[<-|[<-|[]]]]];
    reflexivity.
Defined.

(** ** Symmetry of the score *)

Lemma SFmul_comm (x y : spec_float) : SFmul prec emax x y = SFmul prec emax y x.
Proof.
  destruct x as [sx|sx| |sx mx ex]; destruct y as [sy|sy| |sy my ey];
    cbn [SFmul]; try reflexivity; try (now rewrite xorb_comm).
  f_equal; [apply xorb_comm|f_equal; apply Pos.mul_comm|apply Z.add_comm].
Qed.

Lemma float_mul_comm (x y : float) : PrimFloat.mul x y = PrimFloat.mul y x.
Proof. apply Prim2SF_inj. rewrite !FloatAxioms.mul_spec. apply SFmul_comm. Qed.

Lemma sim_loop_swap (e1 e2 : list float) (d n1 n2 : float) :
  List.length e1 = List.length e2 ->
  sim_loop e2 e1 (d, n2, n1) =
  let '(d', n1', n2') := sim_loop e1 e2 (d, n1, n2) in (d', n2', n1').
Proof.
  revert e2 d n1 n2. induction e1 as [|a e1 IH]; intros [|b e2] d n1 n2 Hlen;
    simpl in *; try discriminate; [reflexivity|].
  cbn [add mul float_number]. rewrite (float_mul_comm b a). apply IH. congruence.
Qed.

Lemma cosine_swap (e1 e2 : list float) :
  List.length e1 = List.length e2 -> cosine e2 e1 = cosine e1 e2.
Proof.
  intros Hlen. unfold cosine.
  change (@zero float _, @zero float _, @zero float _)
    with (0%float, 0%float, 0%float).
  rewrite (sim_loop_swap e1 e2 0%float 0%float 0%float Hlen).
  destruct (sim_loop e1 e2 (0%float, 0%float, 0%float)) as [[d n1] n2].
  rewrite andb_comm. cbn [mul float_number]. now rewrite float_mul_comm.
Qed.

Lemma overlap_swap (k1 k2 : list string) :
  NoDup k1 -> NoDup k2 -> overlap k2 k1 = overlap k1 k2.
Proof.
  intros H1 H2. unfold overlap. apply Permutation_length.
  apply NoDup_Permutation; try now apply NoDup_filter.
  intros k. rewrite !filter_In, !existsb_exists.
  split; intros [Hin (k' & Hk' & Heq)]; apply String.eqb_eq in Heq; subst k';
    (split; [assumption|]); exists k; split; auto; apply String.eqb_refl.
Qed.

Lemma extractKeywords_NoDup (text : string) : NoDup (extractKeywords text).
Proof.
  rewrite extractKeywords_unfold.
  destruct (frequency_counts text) as (Hnd & _).
  rewrite <- firstn_map. apply firstn_NoDup.
  eapply Permutation_NoDup; [|exact Hnd].
  symmetry. apply Permutation_map, js_sort_Permutation.
Qed.

Lemma generateSimpleEmbedding_length (text : string) :
  List.length (generateSimpleEmbedding text) = 100%nat.
Proof.
  rewrite generateSimpleEmbedding_cap, fold_entries_length. apply repeat_length.
Qed.

(** X8: on vectors of equal length and keyword lists without repetition the
    score does not depend on which side is the query. *)
Theorem calculateSimilarity_symmetric (e1 e2 : list float) (k1 k2 : list string) :
  List.length e1 = List.length e2 -> NoDup k1 -> NoDup k2 ->
  calculateSimilarity e2 e1 k2 k1 = calculateSimilarity e1 e2 k1 k2.
Proof.
  intros Hlen H1 H2. unfold calculateSimilarity, keywordSim, keyword_denominator.
  rewrite (cosine_swap e1 e2 Hlen), (overlap_swap k1 k2 H1 H2).
  now rewrite (Nat.max_comm (List.length k2) (List.length k1)).
Qed.

Lemma calculateSimilarity_symmetric_witness :
  calculateSimilarity [2; 3]%float [1; 0]%float ["data"; "page"] ["data"]
  = calculateSimilarity [1; 0]%float [2; 3]%float ["data"] ["data"; "page"].
Proof.
  apply (calculateSimilarity_symmetric [1; 0]%float [2; 3]%float
           ["data"] ["data"; "page"]).
  - reflexivity.
  - repeat constructor; simpl; intuition discriminate.
  - repeat constructor; simpl; intuition discriminate.
Defined.

(** X9: the score of two texts, each through its own embedding and keywords,
    is the same in both directions. *)
Theorem page_similarity_symmetric (text1 text2 : string) :
  calculateSimilarity (generateSimpleEmbedding text2) (generateSimpleEmbedding text1)
    (extractKeywords text2) (extractKeywords text1)
  = calculateSimilarity (generateSimpleEmbedding text1) (generateSimpleEmbedding text2)
      (extractKeywords text1) (extractKeywords text2).
Proof.
  unfold calculateSimilarity, keywordSim, keyword_denominator.
  rewrite (cosine_swap (generateSimpleEmbedding text1) (generateSimpleEmbedding text2))
    by now rewrite !generateSimpleEmbedding_length.
  rewrite (overlap_swap (extractKeywords text1) (extractKeywords text2))
    by apply extractKeywords_NoDup.
  now rewrite (Nat.max_comm (List.length (extractKeywords text2))).
Qed.

(** ** Stored text *)

Lemma prefix_length (n : nat) (s : string) :
  String.length (JsString.prefix n s) = Nat.min n (String.length s).
Proof.
  unfold JsString.prefix. revert s. induction n as [|n IH]; intros [|c s]; simpl; auto.
Qed.

Lemma prefix_short (n : nat) (s : string) :
  (String.length s <= n)%nat -> JsString.prefix n s = s.
Proof.
  unfold JsString.prefix. revert s. induction n as [|n IH]; intros [|c s]; simpl;
    intros H; auto; try lia.
  f_equal. apply IH. lia.
Qed.

Lemma prefix_app (n : nat) (s : string) :
  exists rest, s = (JsString.prefix n s ++ rest)%string.
Proof.
  unfold JsString.prefix. revert s. induction n as [|n IH]; intros [|c s]; simpl.
  - now exists EmptyString.
  - now exists (String c s).
  - now exists EmptyString.
  - destruct (IH s) as [rest H]. exists rest. now f_equal.
Qed.

(** X10: the page stored for a text segment keeps the first 1000 characters
    of the segment (all of it when it is no longer than that), while its
    embedding and keywords are computed from the whole segment. *)
Theorem addDocument_truncates_text (document : PDFDocument)
    (textContent : list string) (setItem_throws : bool) (st : Engine * Stored)
    (i : nat) (segment : string) :
  nth_error textContent i = Some segment ->
  exists entry p,
    JsMap.get (doc_id document)
      (documents (fst (addDocument document textContent setItem_throws st)))
    = Some entry
    /\ nth_error (pageEmbeddings entry) i = Some p
    /\ String.length (text p) = Nat.min 1000 (String.length segment)
    /\ (exists rest, segment = (text p ++ rest)%string)
    /\ ((String.length segment <= 1000)%nat -> text p = segment)
    /\ embedding p = generateSimpleEmbedding segment
    /\ keywords p = extractKeywords segment.
Proof.
  intros Hi. eexists. exists (embed_page i segment).
  split; [apply addDocument_stored|]. cbn [pageEmbeddings].
  split; [now rewrite map_pages_nth, Hi|]. cbn [embed_page text embedding keywords].
  split; [apply prefix_length|]. split; [apply prefix_app|].
  split; [apply prefix_short|]. split; reflexivity.
Qed.

Lemma addDocument_truncates_text_witness :
  exists entry p,
    JsMap.get (doc_id Examples.docA)
      (documents (fst (addDocument Examples.docA Examples.pagesA false
                         Examples.start)))
    = Some entry
    /\ nth_error (pageEmbeddings entry) 1 = Some p
    /\ String.length (text p)
       = Nat.min 1000 (String.length "the chef prepared a delicious meal"%string)
    /\ (exists rest, "the chef prepared a delicious meal"%string = (text p ++ rest)%string)
    /\ ((String.length "the chef prepared a delicious meal"%string <= 1000)%nat ->
          text p = "the chef prepared a delicious meal"%string)
    /\ embedding p = generateSimpleEmbedding "the chef prepared a delicious meal"%string
    /\ keywords p = extractKeywords "the chef prepared a delicious meal"%string.
Proof.
  apply (addDocument_truncates_text Examples.docA Examples.pagesA false
           Examples.start 1 "the chef prepared a delicious meal"%string).
  reflexivity.
Defined.

(** ** Ingesting *)

(** X11: [addDocument] touches the entry of its own id only: every other
    entry is as before, a known id keeps its place and the count stays, a
    new id goes last and the count grows by one; the load flag is not
    touched. *)
Theorem addDocument_replaces_or_appends (document : PDFDocument)
    (textContent : list string) (setItem_throws : bool) (e : Engine)
    (ls : Stored) :
  let e' := fst (addDocument document textContent setItem_throws (e, ls)) in
  (forall other, other <> doc_id document ->
     JsMap.get other (documents e') = JsMap.get other (documents e))
  /\ match JsMap.get (doc_id document) (documents e) with
     | Some _ =>
         getDocumentCount e' = getDocumentCount e
         /\ map fst (documents e') = map fst (documents e)
     | None =>
         getDocumentCount e' = S (getDocumentCount e)
         /\ map fst (documents e') = map fst (documents e) ++ [doc_id document]
     end
  /\ isInitialized e' = isInitialized e.
Proof.
  cbv zeta. simpl. split; [intros other Hne; now apply get_set_other|].
  split; [|reflexivity].
  unfold getDocumentCount. simpl. rewrite set_length.
  destruct (JsMap.get (doc_id document) (documents e)) eqn:G.
  - split; [reflexivity|]. eapply set_keys_present; eauto.
  - split; [reflexivity|]. now apply set_keys_absent.
Qed.

(** X12: ingesting again under the same id replaces the entry: the count
    and the order of the ids stay, and the stored pages and name are those
    of the second call. *)
Theorem addDocument_twice (document document' : PDFDocument)
    (textContent textContent' : list string) (throws throws' : bool)
    (st : Engine * Stored) :
  doc_id document' = doc_id document ->
  let st1 := addDocument document textContent throws st in
  let st2 := addDocument document' textContent' throws' st1 in
  getDocumentCount (fst st2) = getDocumentCount (fst st1)
  /\ map fst (documents (fst st2)) = map fst (documents (fst st1))
  /\ JsMap.get (doc_id document) (documents (fst st2)) =
     Some {| id := doc_id document; name := doc_name document';
             pageEmbeddings := map_pages 0 textContent' |}.
Proof.
  intros Hid. cbv zeta.
  pose proof (addDocument_stored document textContent throws st) as Hs.
  destruct (addDocument document textContent throws st) as [e1 ls1].
  cbn [fst] in Hs. cbn [addDocument fst documents]. rewrite Hid.
  unfold getDocumentCount. cbn [documents].
  rewrite set_length, Hs. split; [reflexivity|].
  split; [eapply set_keys_present; eauto|apply get_set_same].
Qed.

Lemma addDocument_twice_witness :
  let st1 := addDocument Examples.docA Examples.pagesA false Examples.start in
  let st2 := addDocument Examples.docA Examples.pagesB false st1 in
  getDocumentCount (fst st2) = getDocumentCount (fst st1)
  /\ map fst (documents (fst st2)) = map fst (documents (fst st1))
  /\ JsMap.get (doc_id Examples.docA) (documents (fst st2)) =
     Some {| id := doc_id Examples.docA; name := doc_name Examples.docA;
             pageEmbeddings := map_pages 0 Examples.pagesB |}.
Proof.
  apply (addDocument_twice Examples.docA Examples.docA Examples.pagesA
           Examples.pagesB false false Examples.start).
  reflexivity.
Defined.

(** ** The corpus invariant *)

Lemma set_well_keyed (doc : DocumentEmbedding)
    (docs : list (string * DocumentEmbedding)) :
  well_keyed docs -> well_keyed (JsMap.set (id doc) doc docs).
Proof.
  intros [Hnd Hid]. split; [now apply set_NoDup|].
  apply Forall_forall. intros [k d] Hin. apply set_In in Hin.
  destruct Hin as [[= -> ->]|Hin]; [reflexivity|].
  rewrite Forall_forall in Hid. now apply (Hid (k, d)).
Qed.

Lemma load_items_well_keyed (items : list (option DocumentEmbedding))
    (docs : list (string * DocumentEmbedding)) :
  well_keyed docs -> well_keyed (fst (load_items items docs)).
Proof.
  revert docs. induction items as [|[d|] items IH]; intros docs H; simpl; auto.
  apply IH. now apply set_well_keyed.
Qed.

Lemma initialize_well_keyed (ls : Stored) (e : Engine) :
  well_keyed (documents e) -> well_keyed (documents (initialize ls e)).
Proof.
  intros H. unfold initialize. destruct (isInitialized e); [exact H|].
  destruct ls; simpl; auto.
  pose proof (load_items_well_keyed items (documents e) H) as H'.
  destruct (load_items items (documents e)); exact H'.
Qed.

Lemma findRelatedSections_state (currentDocId : string) (currentPage : Z)
    (selectedText : option string) (e : Engine) (ls : Stored) :
  fst (findRelatedSections currentDocId currentPage selectedText (e, ls))
  = initialize ls e.
Proof.
  unfold findRelatedSections.
  destruct (JsMap.get currentDocId (documents (initialize ls e))); reflexivity.
Qed.

(** X13: every operation of the engine keeps the corpus well keyed: each
    document is filed once, under its own id. *)
Theorem documents_stay_well_keyed (e : Engine) (ls : Stored)
    (document : PDFDocument) (textContent : list string) (setItem_throws : bool)
    (currentDocId : string) (currentPage : Z) (selectedText : option string) :
  well_keyed (documents e) ->
  well_keyed (documents (initialize ls e))
  /\ well_keyed
       (documents (fst (addDocument document textContent setItem_throws (e, ls))))
  /\ well_keyed
       (documents (fst (findRelatedSections currentDocId currentPage
                          selectedText (e, ls))))
  /\ well_keyed (documents (fst (clearStorage (e, ls)))).
Proof.
  intros H. split; [now apply initialize_well_keyed|]. split; [|split].
  - simpl.
    apply (set_well_keyed
             {| id := doc_id document; name := doc_name document;
                pageEmbeddings := map_pages 0 textContent |} _ H).
  - rewrite findRelatedSections_state. now apply initialize_well_keyed.
  - simpl. split; constructor.
Qed.

Lemma documents_stay_well_keyed_witness :
  well_keyed (documents (initialize (snd Examples.corpusAB) fresh))
  /\ well_keyed
       (documents (fst (addDocument Examples.docA Examples.pagesA false
                          (fresh, snd Examples.corpusAB))))
  /\ well_keyed
       (documents (fst (findRelatedSections "A" 1 None
                          (fresh, snd Examples.corpusAB))))
  /\ well_keyed (documents (fst (clearStorage (fresh, snd Examples.corpusAB)))).
Proof.
  apply (documents_stay_well_keyed fresh (snd Examples.corpusAB)
           Examples.docA Examples.pagesA false "A" 1 None).
  split; constructor.
Defined.

(** ** Loading *)

Lemma load_items_keeps (items : list (option DocumentEmbedding))
    (docs : list (string * DocumentEmbedding)) (k : string) :
  In k (map fst docs) -> In k (map fst (fst (load_items items docs))).
Proof.
  revert docs. induction items as [|[d|] items IH]; intros docs H; simpl; auto.
  apply IH. apply set_keys. now right.
Qed.

Lemma load_items_get (items : list (option DocumentEmbedding))
    (docs : list (string * DocumentEmbedding)) (k : string) :
  JsMap.get k (fst (load_items items docs)) = stored_copy k items (JsMap.get k docs).
Proof.
  revert docs. induction items as [|[d|] items IH]; intros docs; simpl; auto.
  rewrite IH. f_equal. destruct (String.eqb k (id d)) eqn:E.
  - apply String.eqb_eq in E. subst k. apply get_set_same.
  - apply get_set_other. intros ->. now rewrite String.eqb_refl in E.
Qed.

Lemma stored_copy_found (k : string) (items : list (option DocumentEmbedding))
    (found : option DocumentEmbedding) :
  stored_copy k items found =
  match stored_copy k items None with
  | Some doc => Some doc
  | None => found
  end.
Proof.
  revert found. induction items as [|[d|] items IH]; intros found; simpl; auto.
  rewrite IH. rewrite (IH (if String.eqb k (id d) then Some d else None)).
  destruct (stored_copy k items None); [reflexivity|].
  destruct (String.eqb k (id d)); reflexivity.
Qed.

(** X14: a load into an engine that is not initialized merges the stored
    array into the corpus: under each id the last stored document that was
    read wins, also over a document ingested before the load, and every
    other entry is kept. *)
Theorem initialize_merges_stored (items : list (option DocumentEmbedding))
    (e : Engine) (k : string) :
  isInitialized e = false ->
  JsMap.get k (documents (initialize (DocArray items) e)) =
  match stored_copy k items None with
  | Some doc => Some doc
  | None => JsMap.get k (documents e)
  end.
Proof.
  intros Hi. unfold initialize. rewrite Hi.
  pose proof (load_items_get items (documents e) k) as H.
  destruct (load_items items (documents e)) as [docs completed]. simpl in *.
  rewrite H. apply stored_copy_found.
Qed.

Lemma initialize_merges_stored_witness :
  JsMap.get "B"
    (documents (initialize (DocArray [Some Examples.storedB])
                  (fst (addDocument Examples.docB Examples.pagesA true
                          Examples.start))))
  = Some Examples.storedB.
Proof.
  apply (initialize_merges_stored [Some Examples.storedB]
           (fst (addDocument Examples.docB Examples.pagesA true Examples.start))
           "B").
  reflexivity.
Defined.

(** ** Saving, restarting, clearing *)






(** ** What a query returns *)

Section SortStrong.
Context {A : Type}.
Variable after : A -> A -> bool.
Variable le : A -> A -> Prop.
Variable ok : A -> Prop.
Hypothesis after_le : forall a b, ok a -> ok b -> after a b = true -> le b a.
Hypothesis not_after_le : forall a b, ok a -> ok b -> after a b = false -> le a b.
Hypothesis le_trans :
  forall a b c, ok a -> ok b -> ok c -> le a b -> le b c -> le a c.

Lemma js_insert_StronglySorted (a : A) (l : list A) :
  ok a -> Forall ok l -> StronglySorted le l ->
  StronglySorted le (js_insert after a l).
Proof.
  intros Ha Hl Hs. induction l as [|y l IH]; simpl.
  - repeat constructor.
  - inversion Hl as [|? ? Hy Hl']; subst.
    inversion Hs as [|? ? Hs' Hall]; subst.
    destruct (after a y) eqn:E.
    + constructor; [now apply IH|].
      apply Forall_forall. intros z Hz. apply js_insert_In in Hz.
      destruct Hz as [->|Hz]; [now apply after_le|].
      rewrite Forall_forall in Hall. now apply Hall.
    + constructor; [assumption|].
      assert (Hay : le a y) by now apply not_after_le.
      constructor; [exact Hay|].
      rewrite Forall_forall in *. intros z Hz.
      apply (le_trans a y z); auto.
Qed.

Lemma js_sort_StronglySorted (l : list A) :
  Forall ok l -> StronglySorted le (js_sort after l).
Proof.
  induction l as [|a l IH]; simpl; intros H.
  - constructor.
  - inversion H; subst. apply js_insert_StronglySorted; auto.
    now apply js_sort_Forall.
Qed.

End SortStrong.

Lemma SFleb_trans (x y z : spec_float) :
  SF.positive_value x -> SF.positive_value y -> SF.positive_value z ->
  SFleb x y = true -> SFleb y z = true -> SFleb x z = true.
Proof.
  destruct x as [|[|]| |[|] mx ex]; try contradiction;
  destruct y as [|[|]| |[|] my ey]; try contradiction;
  destruct z as [|[|]| |[|] mz ez]; try contradiction;
    intros _ _ _; unfold SFleb; cbn [SFcompare]; try congruence.
  all: change (IntDef.Z.compare ex ey) with (ex ?= ey)%Z.
  all: change (IntDef.Z.compare ey ez) with (ey ?= ez)%Z.
  all: change (IntDef.Z.compare ex ez) with (ex ?= ez)%Z.
  rewrite !Pos.compare_cont_spec. cbn [Pos.switch_Eq].
  destruct (Z.compare_spec ex ey), (Z.compare_spec ey ez), (Z.compare_spec ex ez);
    try (exfalso; lia);
    destruct (Pos.compare_spec mx my), (Pos.compare_spec my mz),
      (Pos.compare_spec mx mz);
    intros Hxy Hyz; try reflexivity; try discriminate; exfalso; lia.
Qed.

Lemma float_leb_trans (x y z : float) :
  SF.positive_value (Prim2SF x) -> SF.positive_value (Prim2SF y) ->
  SF.positive_value (Prim2SF z) ->
  PrimFloat.leb x y = true -> PrimFloat.leb y z = true -> PrimFloat.leb x z = true.
Proof. rewrite !FloatAxioms.leb_spec. apply SFleb_trans. Qed.

Lemma candidates_ok (currentDocId : string) (currentPage : Z)
    (qe : list float) (qk : list string) (docs : list (string * DocumentEmbedding)) :
  Forall (fun c => above_threshold c = true)
    (candidates currentDocId currentPage qe qk docs).
Proof.
  apply Forall_forall. intros c Hc.
  now apply candidates_above_threshold in Hc.
Qed.

Lemma ranked_strongly_sorted (found : list Candidate) :
  Forall (fun c => above_threshold c = true) found ->
  StronglySorted (fun a b => PrimFloat.leb (score b) (score a) = true)
    (js_sort by_score_after found).
Proof.
  apply (js_sort_StronglySorted by_score_after _ (fun c => above_threshold c = true)).
  - intros a b Ha Hb H. rewrite by_score_after_ltb in H by assumption.
    now apply ltb_leb.
  - intros a b Ha Hb H. rewrite by_score_after_ltb in H by assumption.
    apply not_ltb_leb; auto using above_threshold_positive.
  - intros a b c Ha Hb Hc H1 H2.
    apply (float_leb_trans (score c) (score b) (score a));
      auto using above_threshold_positive.
Qed.

Lemma findRelatedSections_rank (currentDocId : string) (currentPage : Z)
    (selectedText : option string) (e : Engine) (ls : Stored) :
  snd (findRelatedSections currentDocId currentPage selectedText (e, ls)) =
  rank (query_candidates currentDocId currentPage selectedText
          (documents (initialize ls e))).
Proof.
  rewrite findRelatedSections_spec. unfold query_candidates.
  destruct (JsMap.get currentDocId (documents (initialize ls e))); reflexivity.
Qed.

Lemma query_candidates_ok (currentDocId : string) (currentPage : Z)
    (selectedText : option string) (docs : list (string * DocumentEmbedding)) :
  Forall (fun c => above_threshold c = true)
    (query_candidates currentDocId currentPage selectedText docs).
Proof.
  unfold query_candidates. destruct (JsMap.get currentDocId docs); [|constructor].
  apply candidates_ok.
Qed.

(** X18: the result holds as many sections as there are pages above the
    threshold, up to five, and a page above the threshold that is left out
    scores no more than any section returned. *)
Theorem findRelatedSections_returns_the_best (currentDocId : string)
    (currentPage : Z) (selectedText : option string) (e : Engine) (ls : Stored) :
  let found := query_candidates currentDocId currentPage selectedText
                 (documents (initialize ls e)) in
  let result :=
    snd (findRelatedSections currentDocId currentPage selectedText (e, ls)) in
  List.length result = Nat.min 5 (List.length found)
  /\ (forall c r, In c found -> In r result ->
        In (section c) result
        \/ PrimFloat.leb (score c) (relevanceScore r) = true).
Proof.
  cbv zeta. rewrite findRelatedSections_rank.
  set (found := query_candidates _ _ _ _).
  pose proof (query_candidates_ok currentDocId currentPage selectedText
                (documents (initialize ls e))) as Hok. fold found in Hok.
  unfold rank. split.
  - rewrite length_map, length_firstn.
    now rewrite (Permutation_length (js_sort_Permutation by_score_after found)).
  - intros c r Hc Hr. set (sorted := js_sort by_score_after found) in *.
    apply in_map_iff in Hr. destruct Hr as (b & <- & Hb).
    apply (js_sort_In by_score_after) in Hc. fold sorted in Hc.
    rewrite <- (firstn_skipn 5 sorted) in Hc. apply in_app_or in Hc.
    destruct Hc as [Hc|Hc]; [left; now apply in_map|right].
    assert (Hsec : relevanceScore (section b) = score b).
    { apply firstn_incl, js_sort_In in Hb. unfold found, query_candidates in Hb.
      destruct (JsMap.get currentDocId (documents (initialize ls e))); [|destruct Hb].
      now apply candidates_above_threshold in Hb. }
    rewrite Hsec.
    apply (firstn_dominates _ 5 sorted b c (ranked_strongly_sorted found Hok) Hb Hc).
Qed.

(** X17: every returned section is built from a page stored in the corpus,
    under the id of the document it is stored in, with the score of that
    page against the resolved query text. *)
Theorem findRelatedSections_describes_stored_pages (currentDocId : string)
    (currentPage : Z) (selectedText : option string) (e : Engine) (ls : Stored) :
  let docs := documents (initialize ls e) in
  Forall (fun r =>
    exists currentDoc doc page,
      JsMap.get currentDocId docs = Some currentDoc
      /\ In (documentId r, doc) docs
      /\ In page (pageEmbeddings doc)
      /\ let queryText :=
           query_text selectedText (page_at currentDoc currentPage) in
         r = make_section (documentId r) doc page
               (calculateSimilarity (generateSimpleEmbedding queryText)
                  (embedding page) (extractKeywords queryText) (keywords page)))
    (snd (findRelatedSections currentDocId currentPage selectedText (e, ls))).
Proof.
  cbv zeta. rewrite findRelatedSections_spec.
  destruct (JsMap.get currentDocId (documents (initialize ls e))) as [currentDoc|];
    [|constructor].
  apply Forall_forall. intros r Hr. apply rank_In in Hr.
  destruct Hr as (c & Hc & <-). unfold candidates in Hc.
  apply filter_In in Hc. destruct Hc as [Hc _].
  apply in_map_iff in Hc. destruct Hc as ([[docId doc] page] & <- & Hin).
  apply filter_In in Hin. destruct Hin as [Hin _].
  unfold all_pages in Hin. apply in_flat_map in Hin.
  destruct Hin as ([k d] & Hkd & Hp). apply in_map_iff in Hp.
  destruct Hp as (p & [= <- <- <-] & Hp). simpl.
  exists currentDoc, d, p. repeat split; auto.
Qed.

(** ** The empty query *)





Lemma Prim2SF_nan (x : float) : Prim2SF x = S754_nan -> x = PrimFloat.nan.
Proof. intros H. apply Prim2SF_inj. rewrite H. reflexivity. Qed.





(** ** Repeating a query *)

Lemma assoc_ext {V : Type} (m1 m2 : list (string * V)) :
  map fst m1 = map fst m2 -> NoDup (map fst m1) ->
  (forall k, JsMap.get k m1 = JsMap.get k m2) -> m1 = m2.
Proof.
  revert m2. induction m1 as [|[k1 v1] m1 IH]; intros [|[k2 v2] m2] Hk Hnd Hget;
    simpl in *; try discriminate; [reflexivity|].
  injection Hk as -> Hk. inversion Hnd as [|? ? Hnotin Hnd']; subst.
  pose proof (Hget k2) as H2. rewrite String.eqb_refl in H2. injection H2 as ->.
  f_equal. apply IH; auto.
  intros k. specialize (Hget k). destruct (String.eqb k k2) eqn:E; [|exact Hget].
  apply String.eqb_eq in E. subst k.
  assert (Hnone : forall m : list (string * V),
            ~ In k2 (map fst m) -> JsMap.get k2 m = None).
  { clear. intros m. induction m as [|[k v] m IH]; simpl; [reflexivity|].
    intros H. destruct (String.eqb k2 k) eqn:E.
    - apply String.eqb_eq in E. subst. tauto.
    - apply IH. tauto. }
  rewrite !Hnone; auto. now rewrite <- Hk.
Qed.

Lemma load_items_NoDup (items : list (option DocumentEmbedding))
    (docs : list (string * DocumentEmbedding)) :
  NoDup (map fst docs) -> NoDup (map fst (fst (load_items items docs))).
Proof.
  revert docs. induction items as [|[d|] items IH]; intros docs H; simpl; auto.
  apply IH. now apply set_NoDup.
Qed.

Lemma load_items_readable_keys (items : list (option DocumentEmbedding))
    (docs : list (string * DocumentEmbedding)) (d : DocumentEmbedding) :
  In d (readable_prefix items) ->
  In (id d) (map fst (fst (load_items items docs))).
Proof.
  revert docs. induction items as [|[d'|] items IH]; intros docs Hin; simpl in *;
    try contradiction.
  destruct Hin as [->|Hin]; [|now apply IH].
  apply load_items_keeps. apply set_keys. now left.
Qed.

Lemma load_items_absorbed (items : list (option DocumentEmbedding))
    (docs : list (string * DocumentEmbedding)) :
  (forall d, In d (readable_prefix items) -> In (id d) (map fst docs)) ->
  map fst (fst (load_items items docs)) = map fst docs.
Proof.
  revert docs. induction items as [|[d|] items IH]; intros docs H; simpl; auto.
  assert (Hk : map fst (JsMap.set (id d) d docs) = map fst docs).
  { rewrite set_keys_list.
    replace (existsb (String.eqb (id d)) (map fst docs)) with true; [reflexivity|].
    symmetry. apply existsb_exists. exists (id d).
    split; [apply H; now left|apply String.eqb_refl]. }
  rewrite IH; [exact Hk|].
  intros d' Hd'. rewrite Hk. apply H. now right.
Qed.

Lemma load_items_flag (items : list (option DocumentEmbedding))
    (docs docs' : list (string * DocumentEmbedding)) :
  snd (load_items items docs) = snd (load_items items docs').
Proof. now rewrite !load_items_completed. Qed.

Lemma load_items_idempotent (items : list (option DocumentEmbedding))
    (docs : list (string * DocumentEmbedding)) :
  NoDup (map fst docs) ->
  load_items items (fst (load_items items docs)) = load_items items docs.
Proof.
  intros Hnd. apply injective_projections; [|apply load_items_flag].
  apply assoc_ext.
  - apply load_items_absorbed. intros d Hd. now apply load_items_readable_keys.
  - apply load_items_NoDup. now apply load_items_NoDup.
  - intros k. rewrite !load_items_get.
    rewrite (stored_copy_found k items (stored_copy k items (JsMap.get k docs))).
    rewrite (stored_copy_found k items (JsMap.get k docs)).
    destruct (stored_copy k items None); reflexivity.
Qed.

Lemma initialize_idempotent (ls : Stored) (e : Engine) :
  NoDup (map fst (documents e)) -> initialize ls (initialize ls e) = initialize ls e.
Proof.
  intros Hnd. destruct (isInitialized (initialize ls e)) eqn:E;
    [now apply initialize_noop|].
  rewrite initialize_flag in E. apply orb_false_elim in E. destruct E as [Hi Hl].
  unfold initialize at 2 3. rewrite Hi.
  destruct ls; try (unfold initialize; now rewrite Hi); try discriminate.
  pose proof (load_items_idempotent items (documents e) Hnd) as H.
  destruct (load_items items (documents e)) as [docs completed] eqn:L.
  simpl in H. simpl in Hl. rewrite <- (load_items_completed items (documents e)), L in Hl.
  simpl in Hl. subst completed. unfold initialize. simpl. now rewrite H.
Qed.

(** X20: a query can be repeated: asked again of the engine it left behind,
    with the store unchanged, it returns the same sections and leaves the
    same engine, also when the load failed and is tried again. *)
Theorem query_is_repeatable (currentDocId : string) (currentPage : Z)
    (selectedText : option string) (e : Engine) (ls : Stored) :
  NoDup (map fst (documents e)) ->
  let answer := findRelatedSections currentDocId currentPage selectedText (e, ls) in
  findRelatedSections currentDocId currentPage selectedText (fst answer, ls)
  = answer.
Proof.
  intros Hnd. cbv zeta. apply injective_projections.
  - rewrite !findRelatedSections_state. now apply initialize_idempotent.
  - rewrite !findRelatedSections_spec, findRelatedSections_state.
    now rewrite initialize_idempotent.
Qed.

Lemma query_is_repeatable_witness :
  let answer := findRelatedSections "A" 1 None Examples.corpusAB in
  findRelatedSections "A" 1 None (fst answer, snd Examples.corpusAB) = answer.
Proof.
  apply (query_is_repeatable "A" 1 None (fst Examples.corpusAB)
           (snd Examples.corpusAB)).
  repeat constructor; simpl; intuition discriminate.
Defined.

(** ** The uploader *)

Section UploaderFacts.
Import Uploader.
Local Open Scope string_scope.

Lemma append_assoc (a b c : string) : (a ++ b) ++ c = a ++ (b ++ c).
Proof. induction a as [|x a IH]; simpl; [reflexivity|]. now rewrite IH. Qed.

Lemma append_nil_r (a : string) : a ++ EmptyString = a.
Proof. induction a as [|x a IH]; simpl; [reflexivity|]. now rewrite IH. Qed.

Lemma split_loop_nonempty (s cur : string) : split_loop cur s <> [].
Proof.
  revert cur. induction s as [|c s IH]; intros cur; simpl; [discriminate|].
  destruct s as [|c' s']; [discriminate|].
  destruct (is_lf c && is_lf c'); [discriminate|apply IH].
Qed.

Lemma is_lf_eq (c : ascii) : is_lf c = true -> c = lf.
Proof. apply Ascii.eqb_eq. Qed.

Lemma join_cons (piece : string) (rest : list string) :
  rest <> [] -> join (piece :: rest) = piece ++ blank_line ++ join rest.
Proof. destruct rest; [congruence|reflexivity]. Qed.

Lemma split_loop_join (n : nat) (s cur : string) :
  (String.length s <= n)%nat -> join (split_loop cur s) = cur ++ s.
Proof.
  revert s cur. induction n as [|n IH]; intros s cur Hn.
  - destruct s; simpl in *; [now rewrite append_nil_r|lia].
  - destruct s as [|c s]; simpl; [now rewrite append_nil_r|].
    destruct s as [|c' s'].
    + reflexivity.
    + destruct (is_lf c && is_lf c') eqn:E.
      * apply andb_prop in E. destruct E as [E1 E2].
        apply is_lf_eq in E1, E2. subst.
        rewrite join_cons by apply split_loop_nonempty.
        rewrite IH by (simpl in *; lia). reflexivity.
      * rewrite IH by (simpl in *; lia). now rewrite append_assoc.
Qed.

Lemma split_loop_skip (u rest cur : string) :
  string_forall (fun c => negb (is_lf c)) u = true ->
  split_loop cur (u ++ rest) = split_loop (cur ++ u) rest.
Proof.
  revert cur. induction u as [|c u IH]; intros cur H; simpl.
  - now rewrite append_nil_r.
  - simpl in H. apply andb_prop in H. destruct H as [Hc Hu].
    apply negb_true_iff in Hc. rewrite Hc. simpl.
    replace (match u ++ rest with
             | EmptyString => split_loop (cur ++ String c EmptyString) (u ++ rest)
             | String _ _ => split_loop (cur ++ String c EmptyString) (u ++ rest)
             end) with (split_loop (cur ++ String c EmptyString) (u ++ rest))
      by (destruct (u ++ rest); reflexivity).
    rewrite IH by assumption. now rewrite append_assoc.
Qed.

Lemma split_loop_lf_then (c : ascii) (rest cur : string) :
  is_lf c = false ->
  split_loop cur (String lf (String c rest)) =
  split_loop (cur ++ String lf EmptyString) (String c rest).
Proof. intros H. simpl. rewrite H. reflexivity. Qed.

(** X21: cutting a text at blank lines gives at least one piece, joining the
    pieces with blank lines gives the text back, and a text without a line
    feed is one piece. *)
Theorem split_paragraphs_round_trip (text : string) :
  split_paragraphs text <> []
  /\ join (split_paragraphs text) = text
  /\ (string_forall (fun c => negb (is_lf c)) text = true ->
        split_paragraphs text = [text]).
Proof.
  unfold split_paragraphs. split; [apply split_loop_nonempty|]. split.
  - now rewrite (split_loop_join (String.length text)).
  - intros H. rewrite <- (append_nil_r text) at 1.
    now rewrite split_loop_skip.
Qed.

Lemma string_of_uint_no_lf (d : Decimal.uint) :
  string_forall (fun c => negb (is_lf c)) (NilEmpty.string_of_uint d) = true.
Proof. induction d; simpl; auto. Qed.

Lemma of_Z_no_lf (z : Z) :
  string_forall (fun c => negb (is_lf c)) (JsString.of_Z z) = true.
Proof.
  unfold JsString.of_Z, NilZero.string_of_int, NilZero.string_of_uint.
  destruct (Z.to_int z) as [d|d];
    destruct d; try reflexivity; simpl; apply string_of_uint_no_lf.
Qed.

Lemma page_header_no_lf (pageNum : Z) :
  string_forall (fun c => negb (is_lf c)) (page_header pageNum) = true.
Proof.
  unfold page_header. rewrite !string_forall_app, of_Z_no_lf. reflexivity.
Qed.

Lemma extract_loop_blocks (pages : list string) (pageNum : Z) (fullText : string) :
  extract_loop pageNum pages fullText = fullText ++ page_blocks pageNum pages.
Proof.
  revert pageNum fullText. induction pages as [|t rest IH]; intros n acc; simpl.
  - now rewrite append_nil_r.
  - rewrite IH. now rewrite append_assoc.
Qed.

Lemma split_page_blocks (pages : list string) (pageNum : Z) (cur : string) :
  Forall plain pages ->
  split_loop cur (page_blocks pageNum pages) = cur :: page_pieces pageNum pages.
Proof.
  intros H. revert pageNum cur.
  induction H as [|t rest [Hne Hlf] Hrest IH]; intros n cur; [reflexivity|].
  cbn [page_blocks page_pieces]. unfold page_block, blank_line.
  cbn [append]. cbn [split_loop]. unfold is_lf at 1 2.
  rewrite Ascii.eqb_refl. cbn [andb]. f_equal.
  rewrite append_assoc, split_loop_skip by apply page_header_no_lf.
  cbn [append].
  destruct t as [|c t]; [congruence|]. cbn [append].
  simpl in Hlf. apply andb_prop in Hlf. destruct Hlf as [Hc Ht].
  apply negb_true_iff in Hc.
  rewrite split_loop_lf_then by exact Hc.
  change (String c (t ++ page_blocks (n + 1) rest))
    with (String c t ++ page_blocks (n + 1) rest).
  rewrite split_loop_skip by (simpl; now rewrite Hc, Ht).
  rewrite IH. now rewrite append_assoc.
Qed.

Lemma page_pieces_nth (pages : list string) (pageNum : Z) (n : nat) :
  nth_error (page_pieces pageNum pages) n =
  option_map (fun t => page_header (pageNum + Z.of_nat n) ++ String lf t)
    (nth_error pages n).
Proof.
  revert pageNum n.
  induction pages as [|t rest IH]; intros k [|n];
    cbn [page_pieces nth_error option_map]; auto.
  - now rewrite Z.add_0_r.
  - rewrite IH. replace (k + 1 + Z.of_nat n)%Z with (k + Z.of_nat (S n))%Z by lia.
    reflexivity.
Qed.

(** X22: for a readable document whose page texts are not empty and hold no
    line feed, the text handed to the engine starts with a blank line, so
    the first stored page is empty and the text of page [n] of the file,
    after its header line, is stored as page [n + 1]. *)
Theorem uploaded_pages_are_shifted (document : PDFDocument) (fileName : string)
    (pages : list string) (setItem_throws : bool) (st : Engine * Stored) :
  Forall plain pages ->
  split_paragraphs (extractPDFTextLocally fileName (Some pages))
  = EmptyString :: page_pieces 1 pages
  /\ exists entry,
       JsMap.get (doc_id document)
         (documents (fst (index_locally document fileName (Some pages)
                            setItem_throws st)))
       = Some entry
       /\ List.length (pageEmbeddings entry) = S (List.length pages)
       /\ option_map text (page_at entry 1) = Some EmptyString
       /\ (forall n pageText, nth_error pages n = Some pageText ->
             option_map text (page_at entry (Z.of_nat n + 2)) =
             Some (JsString.prefix 1000
                     (page_header (Z.of_nat n + 1) ++ String lf pageText))).
Proof.
  intros H.
  assert (Hsplit : split_paragraphs (extractPDFTextLocally fileName (Some pages))
                   = EmptyString :: page_pieces 1 pages).
  { unfold split_paragraphs, extractPDFTextLocally.
    rewrite extract_loop_blocks. cbn [append]. now apply split_page_blocks. }
  split; [exact Hsplit|].
  unfold index_locally. rewrite Hsplit.
  eexists. split; [apply addDocument_stored|]. cbn [pageEmbeddings].
  split; [|split].
  - rewrite map_pages_length. simpl. f_equal.
    clear. generalize 1%Z. induction pages; intros k; simpl; auto.
  - reflexivity.
  - intros n t Hn. unfold page_at. cbn [pageEmbeddings].
    destruct (Z.of_nat n + 2 - 1 <? 0)%Z eqn:E; [apply Z.ltb_lt in E; lia|].
    replace (Z.to_nat (Z.of_nat n + 2 - 1)) with (S n) by lia.
    rewrite map_pages_nth. cbn [nth_error].
    rewrite page_pieces_nth, Hn. cbn [option_map embed_page text].
    replace (1 + Z.of_nat n)%Z with (Z.of_nat n + 1)%Z by lia. reflexivity.
Qed.

Lemma uploaded_pages_are_shifted_witness :
  let pages := ["alpha beta"; "gamma"] in
  split_paragraphs (extractPDFTextLocally "a.pdf" (Some pages))
  = EmptyString :: page_pieces 1 pages
  /\ exists entry,
       JsMap.get (doc_id Examples.docA)
         (documents (fst (index_locally Examples.docA "a.pdf" (Some pages)
                            false Examples.start)))
       = Some entry
       /\ List.length (pageEmbeddings entry) = S (List.length pages)
       /\ option_map text (page_at entry 1) = Some EmptyString
       /\ (forall n pageText, nth_error pages n = Some pageText ->
             option_map text (page_at entry (Z.of_nat n + 2)) =
             Some (JsString.prefix 1000
                     (page_header (Z.of_nat n + 1) ++ String lf pageText))).
Proof.
  apply (uploaded_pages_are_shifted Examples.docA "a.pdf"
           ["alpha beta"; "gamma"] false Examples.start).
  repeat constructor; discriminate.
Defined.

End UploaderFacts.
